(* ===================================================================== *)
(* medusa-pos-starter: the product-details screen and the bottom sheet   *)
(*                                                                       *)
(* A shallow embedding of the view logic of                              *)
(*   - the product-details screen (ProductDetails / ProductDetailsScreen)*)
(*   - components/ui/BottomSheet.tsx                                     *)
(* and the properties of variant resolution, price lookup, the           *)
(* add-to-cart press and the sheet's gesture and animation handlers.     *)
(* ===================================================================== *)

From Stdlib Require Import QArith Qabs Qminmax Lqa.
From stdpp Require Import gmap strings list fin_maps.

Open Scope string_scope.

(* ===================================================================== *)
(* Part I.  The product-details screen                                   *)
(* ===================================================================== *)

Module ProductDetails.

(** One entry of [variant.options]: the value chosen for one option.
    [option_id] is optional in the API type ([string | null | undefined]). *)
Record AdminProductOptionValue := {
  option_id : option string;
  value : string
}.

(** One entry of [variant.prices]. *)
Record AdminPrice := {
  currency_code : string;
  amount : Q
}.

(** A product variant; [options] and [prices] may be absent. *)
Record AdminProductVariant := {
  id : string;
  options : option (list AdminProductOptionValue);
  prices : option (list AdminPrice)
}.

(** The [selectedOptions] state: a [Record<string, string>]. *)
Abbreviation SelectedOptions := (gmap string string).

(** JavaScript truthiness of a string: the empty string is falsy. *)
Definition truthy (s : string) : bool :=
  match s with
  | EmptyString => false
  | String _ _ => true
  end.

(** [(option) => option.option_id === optionId && option.value === value] *)
Definition optionMatches (optionId val : string) (o : AdminProductOptionValue) : bool :=
  bool_decide (option_id o = Some optionId) && bool_decide (value o = val).

(** [variant.options?.some(...)]: an absent option list yields [undefined],
    which [every] reads as false. *)
Definition variantHasOption (variant : AdminProductVariant) (optionId val : string) : bool :=
  match options variant with
  | Some os => existsb (optionMatches optionId val) os
  | None => false
  end.

(** The predicate handed to [find]:
    [Object.entries(selectedOptions).every(([optionId, value]) => ...)].
    [every] evaluates a pure predicate, so the order of the entries is
    immaterial; [map_to_list] enumerates them. *)
Definition variantMatches (selectedOptions : SelectedOptions)
    (variant : AdminProductVariant) : bool :=
  forallb (fun '(optionId, val) => variantHasOption variant optionId val)
          (map_to_list selectedOptions).

(** [productQuery.data?.product.variants?.find(...)]: the first variant
    that satisfies the predicate, [undefined] when there is none or when the
    product has no variant list. *)
Definition selectedVariant (variants : option (list AdminProductVariant))
    (selectedOptions : SelectedOptions) : option AdminProductVariant :=
  match variants with
  | Some vs => List.find (variantMatches selectedOptions) vs
  | None => None
  end.

(** [acc[key] = value] on the plain object [acc], for a string [value].  The
    key ["__proto__"] names the prototype accessor of the object: assigning a
    string to it is ignored and creates no entry. *)
Definition assignKey (key val : string) (acc : SelectedOptions) : SelectedOptions :=
  if bool_decide (key = "__proto__") then acc else <[key := val]> acc.

(** The reducer of the load effect: the first variant's options, keeping
    the entries whose value and option id are both truthy. *)
Definition initialOptionsStep (acc : SelectedOptions) (o : AdminProductOptionValue)
    : SelectedOptions :=
  match option_id o with
  | Some oid => if truthy (value o) && truthy oid then assignKey oid (value o) acc else acc
  | None => acc
  end.

(** [firstVariant.options?.reduce(..., {}) ?? {}] *)
Definition initialOptions (firstVariant : AdminProductVariant) : SelectedOptions :=
  match options firstVariant with
  | Some os => fold_left initialOptionsStep os ∅
  | None => ∅
  end.

(** [onValueChange]: [{ ...prev, [option.id]: value.value }].  A computed
    key of an object literal defines an entry under any name. *)
Definition onValueChange (optionId val : string) (prev : SelectedOptions)
    : SelectedOptions :=
  <[optionId := val]> prev.

(** The settings context, as far as the screen reads it. *)
Record Region := { region_currency_code : option string }.
Record SettingsData := { region : option Region }.
Record Settings := { data : option SettingsData }.

(** [settings.data?.region?.currency_code] *)
Definition settingsCurrency (settings : Settings) : option string :=
  match data settings with
  | Some d => match region d with
              | Some r => region_currency_code r
              | None => None
              end
  | None => None
  end.

(** [settings.data?.region?.currency_code || 'eur']: a missing or empty
    code falls back to the default. *)
Definition currencyCode (settings : Settings) : string :=
  match settingsCurrency settings with
  | Some c => if truthy c then c else "eur"
  | None => "eur"
  end.

(** [selectedVariant?.prices?.find((price) => price.currency_code === currencyCode)] *)
Definition price (selected : option AdminProductVariant) (code : string)
    : option AdminPrice :=
  match selected with
  | Some v =>
      match prices v with
      | Some ps => List.find (fun p => bool_decide (currency_code p = code)) ps
      | None => None
      end
  | None => None
  end.

(** What the header hands to the number formatter: [price && ...] guards
    the text, whose content is [price.amount.toLocaleString(undefined,
    { style: 'currency', currency: price.currency_code, ... })].  The record
    holds the amount and the currency of that call; [displayPrice] below adds
    what the formatter does with them. *)
Record PriceText := { shown_amount : Q; shown_currency : string }.

Definition priceView (p : option AdminPrice) : option PriceText :=
  match p with
  | Some p => Some {| shown_amount := amount p; shown_currency := currency_code p |}
  | None => None
  end.

(** The whole price column of one render. *)
Definition renderPrice (variants : option (list AdminProductVariant))
    (selectedOptions : SelectedOptions) (settings : Settings) : option PriceText :=
  priceView (price (selectedVariant variants selectedOptions) (currencyCode settings)).

(** A currency code the number formatter accepts: three letters A-Z or
    a-z.  For any other code [toLocaleString] throws a RangeError. *)
Definition isAsciiLetter (c : Ascii.ascii) : bool :=
  let n := Ascii.nat_of_ascii c in
  ((65 <=? n)%nat && (n <=? 90)%nat) || ((97 <=? n)%nat && (n <=? 122)%nat).

Definition wellFormedCurrencyCode (code : string) : bool :=
  match code with
  | String a (String b (String c EmptyString)) =>
      isAsciiLetter a && isAsciiLetter b && isAsciiLetter c
  | _ => false
  end.

(** The outcome of rendering the price: nothing when [price] is undefined;
    otherwise the text the formatter produces for the amount in the currency
    ([Formatted amount currency] stands for that text, which depends on the
    locale of the device), or the RangeError it throws. *)
Inductive PriceDisplay :=
| NoPrice
| Formatted (amount : Q) (currency : string)
| RangeError.

Definition displayPrice (p : option AdminPrice) : PriceDisplay :=
  match priceView p with
  | None => NoPrice
  | Some t =>
      if wellFormedCurrencyCode (shown_currency t)
      then Formatted (shown_amount t) (shown_currency t)
      else RangeError
  end.

(** The price column of one render, formatter included. *)
Definition renderPriceDisplay (variants : option (list AdminProductVariant))
    (selectedOptions : SelectedOptions) (settings : Settings) : PriceDisplay :=
  displayPrice (price (selectedVariant variants selectedOptions) (currencyCode settings)).

(** One item of the add-to-order payload. *)
Record Item := { quantity : Z; variant_id : string }.

(** The payload of [addToDraftOrder.mutate]. *)
Record Payload := { items : list Item }.

(** The [disabled] property of the button: [!selectedVariant]. *)
Definition buttonDisabled (selected : option AdminProductVariant) : bool :=
  match selected with
  | Some _ => false
  | None => true
  end.

(** The button's [onPress]: returns at once when no variant is resolved,
    otherwise submits one item.  The result is the payload passed to
    [mutate], if [mutate] is called. *)
Definition onPress (selected : option AdminProductVariant) (q : Z) : option Payload :=
  match selected with
  | None => None
  | Some v => Some {| items := [ {| quantity := q; variant_id := id v |} ] |}
  end.

(** The [className] the option picker gives to one value of one option:
    [variants?.some(variant => Object.entries({...selectedOptions,
    [option.id]: value.value}).every(...)) ? undefined : 'opacity-50'].
    [None] is [undefined]. *)
Definition valueClassName (variants : option (list AdminProductVariant))
    (selectedOptions : SelectedOptions) (optionId val : string) : option string :=
  let newSelectedOptions := <[optionId := val]> selectedOptions in
  let available :=
    match variants with
    | Some vs => existsb (variantMatches newSelectedOptions) vs
    | None => false
    end in
  if available then None else Some "opacity-50".

(** [selectedValue={selectedOptions[option.id]}], for the entries of the
    object itself; the names the object inherits from its prototype
    (["constructor"] and the like) are not modelled. *)
Definition selectedValue (selectedOptions : SelectedOptions) (optionId : string)
    : option string :=
  selectedOptions !! optionId.

End ProductDetails.

(* ===================================================================== *)
(* Part II.  The bottom sheet                                            *)
(* ===================================================================== *)

Module BottomSheet.

(** Numbers.  Gesture coordinates, velocities and opacities are JavaScript
    numbers; they are modelled as exact rationals.  The comparisons of the
    handlers are against the integer constants 0, 100 and 500. *)

(** [a > b] *)
Definition gt (a b : Q) : bool := negb (Qle_bool a b).

(** The functions a caller hands to the sheet are opaque to it; the model
    records which of them is invoked.  [callback_called k] is a call of the
    function [k] that the sheet's content passed to [animateOut]. *)
Inductive Call :=
| onClose_called
| onOverlayPress_called
| onCloseIconPress_called
| onRequestClose_called
| callback_called (k : string).

(** The properties of the sheet that its handlers read.  A function
    property is [true] when the caller supplied it. *)
Record Props := {
  dismissOnOverlayPress : bool;
  onClose : bool;
  onOverlayPress : bool;
  onCloseIconPress : bool;
  onRequestClose : bool
}.

(** The zero-argument functions handed to [scheduleOnRN]. *)
Inductive Thunk :=
| handleClose                 (* [() => { onClose?.() }], the memoised handler *)
| onCloseThunk                (* [() => onClose?.()], built by the close icon *)
| userCallback (k : string).  (* a function supplied by the sheet's content *)

(** The completion worklets passed to [withTiming]. *)
Inductive Completion :=
| closeWhenFinished
    (* [(finished) => { if (finished) scheduleOnRN(handleClose) }] *)
| callbackWhenFinished (callback : option Thunk).
    (* [(finished) => { if (finished && callback) scheduleOnRN(callback) }] *)

(** The animation objects the handlers build. *)
Inductive Animation :=
| withTiming (toValue duration : Q) (callback : option Completion)
| withSpring (toValue stiffness damping : Q)
| withDecay (velocity : Q) (clamp : Q * Q).

(** What a handler assigns to [sharedValue.value]. *)
Inductive Assigned :=
| num (v : Q)
| anim (a : Animation).

(** The content of a shared value: a number at rest, an animation in
    progress, or an animation that has ended where its motion left it (an
    interrupted animation, or a decay: the model does not compute that
    position). *)
Inductive SharedValue :=
| Value (v : Q)
| Running (a : Animation)
| Stopped (a : Animation).

(** The content of a shared value after [x] is assigned to it. *)
Definition contentOf (x : Assigned) : SharedValue :=
  match x with
  | num v => Value v
  | anim a => Running a
  end.

(** The two shared values of the sheet. *)
Inductive SV := TranslateY | OverlayOpacity.

Record Sheet := {
  translateY : SharedValue;
  overlayOpacity : SharedValue
}.

(** [useSharedValue(300)], [useSharedValue(0)] *)
Definition initial : Sheet :=
  {| translateY := Value 300; overlayOpacity := Value 0 |}.

Definition get (sv : SV) (s : Sheet) : SharedValue :=
  match sv with
  | TranslateY => translateY s
  | OverlayOpacity => overlayOpacity s
  end.

Definition put (sv : SV) (x : SharedValue) (s : Sheet) : Sheet :=
  match sv with
  | TranslateY => {| translateY := x; overlayOpacity := overlayOpacity s |}
  | OverlayOpacity => {| translateY := translateY s; overlayOpacity := x |}
  end.

(** The event of a pan gesture, as far as the handlers read it. *)
Record PanEvent := {
  translationY : Q;
  velocityY : Q
}.

(** The [finished] argument of a completion worklet is [boolean | undefined];
    only [true] is truthy. *)
Definition isFinished (finished : option bool) : bool :=
  match finished with
  | Some true => true
  | _ => false
  end.

Section WithProps.

Variable props : Props.

(** Running a thunk on the React Native thread. *)
Definition runThunk (t : Thunk) : list Call :=
  match t with
  | handleClose => if onClose props then [onClose_called] else []
  | onCloseThunk => if onClose props then [onClose_called] else []
  | userCallback k => [callback_called k]
  end.

(** [scheduleOnRN(f)] marshals [f] to the React Native thread; the model
    runs it in order, at once. *)
Definition scheduleOnRN (t : Thunk) : list Call := runThunk t.

(** A completion worklet applied to the [finished] flag. *)
Definition runCompletion (c : Completion) (finished : option bool) : list Call :=
  match c with
  | closeWhenFinished =>
      if isFinished finished then scheduleOnRN handleClose else []
  | callbackWhenFinished callback =>
      match callback with
      | Some cb => if isFinished finished then scheduleOnRN cb else []
      | None => []
      end
  end.

(** The completion worklet of an animation, if it has one, applied to
    [finished]. *)
Definition runCallback (a : Animation) (finished : option bool) : list Call :=
  match a with
  | withTiming _ _ (Some c) => runCompletion c finished
  | _ => []
  end.

(** Handlers run in a small state-and-trace monad: they read and write the
    sheet's shared values and call functions of the caller. *)
Definition M (A : Type) : Type := Sheet -> A * Sheet * list Call.

Definition ret {A : Type} (a : A) : M A := fun s => (a, s, []).

Definition bind {A B : Type} (m : M A) (k : A -> M B) : M B :=
  fun s =>
    let '(a, s1, c1) := m s in
    let '(b, s2, c2) := k a s1 in
    (b, s2, (c1 ++ c2)%list).

Definition emit (cs : list Call) : M unit := fun s => (tt, s, cs).

Local Notation "m1 ;;; m2" := (bind m1 (fun _ => m2))
  (at level 100, right associativity).

(** [sv.value = x].  The animation library cancels the animation that is
    running on [sv], which calls its completion worklet with
    [finished = false], and installs [x].  This module records what was
    assigned last, not the number a shared value holds; [Mutables] below
    keeps that number and the test the setter makes on it. *)
Definition assign (sv : SV) (x : Assigned) : M unit :=
  fun s =>
    let cancelled :=
      match get sv s with
      | Running a => runCallback a (Some false)
      | _ => []
      end in
    (tt, put sv (contentOf x) s, cancelled).

(** The animation running on [sv] ends and the library calls its completion
    worklet with [finished].  A timing or a spring that finished rests at its
    target. *)
Definition settle (a : Animation) (finished : option bool) : SharedValue :=
  if isFinished finished then
    match a with
    | withTiming toValue _ _ => Value toValue
    | withSpring toValue _ _ => Value toValue
    | withDecay _ _ => Stopped a
    end
  else Stopped a.

Definition animationEnd (sv : SV) (finished : option bool) : M unit :=
  fun s =>
    match get sv s with
    | Running a => (tt, put sv (settle a finished) s, runCallback a finished)
    | _ => (tt, s, [])
    end.

(** The calls a completion signal with [finished] would make for the
    content [x] of a shared value. *)
Definition pendingCalls (x : SharedValue) (finished : option bool) : list Call :=
  match x with
  | Running a => runCallback a finished
  | _ => []
  end.

(** [animateIn] *)
Definition animateIn : M unit :=
  assign TranslateY (anim (withTiming 0 300 None)) ;;;
  assign OverlayOpacity (anim (withTiming 1 300 None)).

(** [animateOut(callback?)] *)
Definition animateOut (callback : option Thunk) : M unit :=
  assign TranslateY (anim (withTiming 300 250 None)) ;;;
  assign OverlayOpacity
    (anim (withTiming 0 250 (Some (callbackWhenFinished callback)))).

(** [Math.max(0.3, 1 - event.translationY / 200)] *)
Definition fadeOpacity (d : Q) : Q := Qmax (3 # 10) (1 - d / 200).

(** [panGesture.onChange] *)
Definition onChange (event : PanEvent) : M unit :=
  if gt (translationY event) 0 then
    assign TranslateY (num (translationY event)) ;;;
    assign OverlayOpacity (num (fadeOpacity (translationY event)))
  else ret tt.

(** [event.translationY > 100 || event.velocityY > 500] *)
Definition shouldClose (event : PanEvent) : bool :=
  gt (translationY event) 100 || gt (velocityY event) 500.

(** [panGesture.onFinalize] *)
Definition onFinalize (event : PanEvent) : M unit :=
  if shouldClose event then
    if gt (Qabs (velocityY event)) 500 then
      assign TranslateY (anim (withDecay (velocityY event) (0%Q, 300%Q))) ;;;
      assign OverlayOpacity (anim (withTiming 0 250 (Some closeWhenFinished)))
    else
      assign TranslateY (anim (withTiming 300 250 None)) ;;;
      assign OverlayOpacity (anim (withTiming 0 250 (Some closeWhenFinished)))
  else
    assign TranslateY (anim (withSpring 0 100 8)) ;;;
    assign OverlayOpacity (anim (withSpring 1 100 8)).

(** [overlayTapGesture.onEnd] *)
Definition onOverlayTap : M unit :=
  if dismissOnOverlayPress props then
    if onOverlayPress props then emit [onOverlayPress_called]
    else
      assign TranslateY (anim (withTiming 300 250 None)) ;;;
      assign OverlayOpacity (anim (withTiming 0 250 (Some closeWhenFinished)))
  else ret tt.

(** [handleCloseIconPress] *)
Definition handleCloseIconPress : M unit :=
  if onCloseIconPress props then emit [onCloseIconPress_called]
  else animateOut (Some onCloseThunk).

(** The modal's [onRequestClose] (hardware back). *)
Definition handleRequestClose : M unit :=
  if onRequestClose props then emit [onRequestClose_called]
  else emit (if onClose props then [onClose_called] else []).

(** What can happen to a mounted sheet. *)
Inductive Event :=
| BecomesVisible
| PanChange (event : PanEvent)
| PanFinalize (event : PanEvent)
| OverlayTap
| CloseIconPress
| RequestClose
| AnimateOut (callback : option Thunk)
| AnimationEnd (sv : SV) (finished : option bool).

Definition handle (ev : Event) : M unit :=
  match ev with
  | BecomesVisible => animateIn
  | PanChange event => onChange event
  | PanFinalize event => onFinalize event
  | OverlayTap => onOverlayTap
  | CloseIconPress => handleCloseIconPress
  | RequestClose => handleRequestClose
  | AnimateOut callback => animateOut callback
  | AnimationEnd sv finished => animationEnd sv finished
  end.

(** The events of a list, handled in order. *)
Fixpoint run (evs : list Event) : M unit :=
  match evs with
  | [] => ret tt
  | ev :: rest => handle ev ;;; run rest
  end.

(** The sheet after the events, and the calls made while handling them. *)
Definition stateAfter (evs : list Event) (s : Sheet) : Sheet := snd (fst (run evs s)).
Definition callsOf (evs : list Event) (s : Sheet) : list Call := snd (run evs s).

End WithProps.

(** Completion signals delivered by the animation library: which shared
    value's animation ended, and whether it finished. *)
Definition signals (l : list (SV * option bool)) : list Event :=
  map (fun x => AnimationEnd (fst x) (snd x)) l.

(** The first completion signal for the overlay opacity reports that the
    animation finished. *)
Fixpoint opacityFinished (l : list (SV * option bool)) : bool :=
  match l with
  | [] => false
  | (OverlayOpacity, finished) :: _ => isFinished finished
  | (TranslateY, _) :: rest => opacityFinished rest
  end.

(** A drag: change events, then the release. *)
Definition drag (changes : list PanEvent) (release : PanEvent) : list Event :=
  (map PanChange changes ++ [PanFinalize release])%list.

(** The largest downward distance a drag reports, the release included. *)
Definition peakDistance (changes : list PanEvent) (release : PanEvent) : Q :=
  fold_right Qmax (translationY release) (map translationY changes).

End BottomSheet.

(* ===================================================================== *)
(* Part II, continued.  The sheet over shared values that hold a number  *)
(*                                                                       *)
(* [BottomSheet] above records, for each shared value, what was assigned *)
(* to it last.  Here a shared value also holds its current number, which *)
(* the setter of the animation library reads: an animation towards the   *)
(* number already held is not started, and is reported finished at once. *)
(* ===================================================================== *)

Module Mutables.

Import BottomSheet.

(** A shared value as the library keeps it: the number it holds now
    ([_value]) and the animation running on it ([_animation]), if one is. *)
Record Mutable := {
  held : Q;
  running : option Animation
}.

Definition resting (v : Q) : Mutable := {| held := v; running := None |}.

Record Values := {
  offsetY : Mutable;      (* [translateY] *)
  opacity : Mutable       (* [overlayOpacity] *)
}.

(** [useSharedValue(300)], [useSharedValue(0)] *)
Definition start : Values :=
  {| offsetY := resting 300; opacity := resting 0 |}.

Definition read (sv : SV) (s : Values) : Mutable :=
  match sv with
  | TranslateY => offsetY s
  | OverlayOpacity => opacity s
  end.

Definition write (sv : SV) (m : Mutable) (s : Values) : Values :=
  match sv with
  | TranslateY => {| offsetY := m; opacity := opacity s |}
  | OverlayOpacity => {| offsetY := offsetY s; opacity := m |}
  end.

(** The content of a shared value carries no completion worklet. *)
Definition noWorklet (m : Mutable) : bool :=
  match running m with
  | Some (withTiming _ _ (Some _)) => false
  | _ => true
  end.

Section WithLibrary.

Variable props : Props.

(** The [current] field with which the library creates a decay animation,
    if it gives it one.  The library is not part of the source; what is
    proved below holds whatever this field is. *)
Variable decayCurrent : option Q.

(** The number a new animation object holds in [current] until it starts: a
    timing and a spring hold their target there. *)
Definition heldTarget (a : Animation) : option Q :=
  match a with
  | withTiming toValue _ _ => Some toValue
  | withSpring toValue _ _ => Some toValue
  | withDecay _ _ => decayCurrent
  end.

(** The test of the setter: [mutable._value === animation.current]. *)
Definition alreadyThere (m : Mutable) (a : Animation) : bool :=
  match heldTarget a with
  | Some target => Qeq_bool (held m) target
  | None => false
  end.

(** The shared value after [x] is assigned to it: a number is stored; an
    animation is started unless the value already holds its target. *)
Definition installed (m : Mutable) (x : Assigned) : Mutable :=
  match x with
  | num v => resting v
  | anim a =>
      {| held := held m;
         running := if alreadyThere m a then None else Some a |}
  end.

(** What the setter reports at once: an animation that is not started has
    its completion worklet called with [finished = true]. *)
Definition reported (m : Mutable) (x : Assigned) : list Call :=
  match x with
  | num _ => []
  | anim a => if alreadyThere m a then runCallback props a (Some true) else []
  end.

(** The calls a completion signal with [finished] would make for the
    animation running on a shared value. *)
Definition pending (m : Mutable) (finished : option bool) : list Call :=
  match running m with
  | Some a => runCallback props a finished
  | None => []
  end.

Definition L (A : Type) : Type := Values -> A * Values * list Call.

Definition lret {A : Type} (a : A) : L A := fun s => (a, s, []).

Definition lbind {A B : Type} (m : L A) (k : A -> L B) : L B :=
  fun s =>
    let '(a, s1, c1) := m s in
    let '(b, s2, c2) := k a s1 in
    (b, s2, (c1 ++ c2)%list).

Definition lemit (cs : list Call) : L unit := fun s => (tt, s, cs).

Local Notation "m1 ;;; m2" := (lbind m1 (fun _ => m2))
  (at level 100, right associativity).

(** [sv.value = x], as the setter of the library does it.  The animation
    running on [sv] is cancelled: its completion worklet is told
    [finished = false].  Then [x] is installed, and an animation that is not
    started is reported finished. *)
Definition store (sv : SV) (x : Assigned) : L unit :=
  fun s =>
    let m := read sv s in
    (tt, write sv (installed m x) s, (reported m x ++ pending m (Some false))%list).

(** A frame of the animation running on [sv]: the number moves to [v]. *)
Definition frame (sv : SV) (v : Q) : L unit :=
  fun s =>
    let m := read sv s in
    match running m with
    | Some a => (tt, write sv {| held := v; running := Some a |} s, [])
    | None => (tt, s, [])
    end.

(** The animation running on [sv] ends and its completion worklet is called
    with [finished].  A timing or a spring that finished holds its target; a
    decay, or an animation that did not finish, holds the number of its last
    frame.  When an animation ends is for the library to say: this input may
    follow the assignment that started the animation without delay. *)
Definition ended (sv : SV) (finished : option bool) : L unit :=
  fun s =>
    let m := read sv s in
    match running m with
    | Some a =>
        let v :=
          if isFinished finished then
            match a with
            | withTiming toValue _ _ => toValue
            | withSpring toValue _ _ => toValue
            | withDecay _ _ => held m
            end
          else held m in
        (tt, write sv (resting v) s, runCallback props a finished)
    | None => (tt, s, [])
    end.

(** [animateIn] *)
Definition animateIn : L unit :=
  store TranslateY (anim (withTiming 0 300 None)) ;;;
  store OverlayOpacity (anim (withTiming 1 300 None)).

(** [animateOut(callback?)] *)
Definition animateOut (callback : option Thunk) : L unit :=
  store TranslateY (anim (withTiming 300 250 None)) ;;;
  store OverlayOpacity
    (anim (withTiming 0 250 (Some (callbackWhenFinished callback)))).

(** [panGesture.onChange] *)
Definition onChange (event : PanEvent) : L unit :=
  if gt (translationY event) 0 then
    store TranslateY (num (translationY event)) ;;;
    store OverlayOpacity (num (fadeOpacity (translationY event)))
  else lret tt.

(** [panGesture.onFinalize] *)
Definition onFinalize (event : PanEvent) : L unit :=
  if shouldClose event then
    if gt (Qabs (velocityY event)) 500 then
      store TranslateY (anim (withDecay (velocityY event) (0%Q, 300%Q))) ;;;
      store OverlayOpacity (anim (withTiming 0 250 (Some closeWhenFinished)))
    else
      store TranslateY (anim (withTiming 300 250 None)) ;;;
      store OverlayOpacity (anim (withTiming 0 250 (Some closeWhenFinished)))
  else
    store TranslateY (anim (withSpring 0 100 8)) ;;;
    store OverlayOpacity (anim (withSpring 1 100 8)).

(** [overlayTapGesture.onEnd] *)
Definition onOverlayTap : L unit :=
  if dismissOnOverlayPress props then
    if onOverlayPress props then lemit [onOverlayPress_called]
    else
      store TranslateY (anim (withTiming 300 250 None)) ;;;
      store OverlayOpacity (anim (withTiming 0 250 (Some closeWhenFinished)))
  else lret tt.

(** [handleCloseIconPress] *)
Definition handleCloseIconPress : L unit :=
  if onCloseIconPress props then lemit [onCloseIconPress_called]
  else animateOut (Some onCloseThunk).

(** The modal's [onRequestClose] (hardware back). *)
Definition handleRequestClose : L unit :=
  if onRequestClose props then lemit [onRequestClose_called]
  else lemit (if onClose props then [onClose_called] else []).

(** What reaches the sheet: the events of [BottomSheet], and the frames of
    the running animations. *)
Inductive Input :=
| Fire (ev : Event)
| Frame (sv : SV) (v : Q).

Definition handle (i : Input) : L unit :=
  match i with
  | Fire BecomesVisible => animateIn
  | Fire (PanChange event) => onChange event
  | Fire (PanFinalize event) => onFinalize event
  | Fire OverlayTap => onOverlayTap
  | Fire CloseIconPress => handleCloseIconPress
  | Fire RequestClose => handleRequestClose
  | Fire (AnimateOut callback) => animateOut callback
  | Fire (AnimationEnd sv finished) => ended sv finished
  | Frame sv v => frame sv v
  end.

Fixpoint run (inputs : list Input) : L unit :=
  match inputs with
  | [] => lret tt
  | i :: rest => handle i ;;; run rest
  end.

Definition stateAfter (inputs : list Input) (s : Values) : Values :=
  snd (fst (run inputs s)).
Definition callsOf (inputs : list Input) (s : Values) : list Call :=
  snd (run inputs s).

End WithLibrary.

(** What the animation library alone sends: frames and completion signals. *)
Inductive Tick :=
| FrameTick (sv : SV) (v : Q)
| EndTick (sv : SV) (finished : option bool).

Definition tick (t : Tick) : Input :=
  match t with
  | FrameTick sv v => Frame sv v
  | EndTick sv finished => Fire (AnimationEnd sv finished)
  end.

Definition ticks (l : list Tick) : list Input := map tick l.

(** The first completion signal for the overlay opacity reports that the
    animation finished. *)
Fixpoint opacityEnds (l : list Tick) : bool :=
  match l with
  | [] => false
  | EndTick OverlayOpacity finished :: _ => isFinished finished
  | _ :: rest => opacityEnds rest
  end.

(** A drag: change events, then the release. *)
Definition drag (changes : list PanEvent) (release : PanEvent) : list Input :=
  (map (fun e => Fire (PanChange e)) changes ++ [Fire (PanFinalize release)])%list.

(** The number of calls of [onClose] in a trace. *)
Fixpoint closeCalls (cs : list Call) : nat :=
  match cs with
  | [] => 0
  | onClose_called :: rest => S (closeCalls rest)
  | _ :: rest => closeCalls rest
  end.

(** The inputs that can lead to a call of [onClose]: a completion signal
    that reports the overlay animation finished, a hardware-back request,
    and what assigns an exit animation to the overlay. *)
Definition canClose (i : Input) : bool :=
  match i with
  | Fire (AnimationEnd OverlayOpacity finished) => isFinished finished
  | Fire RequestClose => true
  | Fire OverlayTap => true
  | Fire CloseIconPress => true
  | Fire (AnimateOut _) => true
  | Fire (PanFinalize event) => shouldClose event
  | _ => false
  end.

Fixpoint closers (inputs : list Input) : nat :=
  match inputs with
  | [] => 0
  | i :: rest => (if canClose i then 1 else 0) + closers rest
  end.

End Mutables.

(* ===================================================================== *)
(* Part III.  The screen: the sheet with the product details inside      *)
(* ===================================================================== *)

Module Screen.

Import BottomSheet.

(** The calls the screen makes on the router. *)
Inductive Navigation :=
| router_back
| router_dismissTo (href : string).

(** [<BottomSheet visible={visible} onClose={() => router.back()}
      showCloseButton={false} dismissOnOverlayPress>] *)
Definition sheetProps : Props :=
  {| dismissOnOverlayPress := true;
     onClose := true;
     onOverlayPress := false;
     onCloseIconPress := false;
     onRequestClose := false |}.

(** What the screen's functions do when the sheet calls them:
    [onClose] is [() => router.back()]. *)
Definition navigationOf (c : Call) : list Navigation :=
  match c with
  | onClose_called => [router_back]
  | _ => []
  end.

(** The [onSuccess] option of the mutation:
    [animateOut(); router.dismissTo('/(tabs)/cart');] *)
Definition onSuccess (s : Sheet) : Sheet * list Navigation :=
  let '(_, s1, calls) := animateOut sheetProps None s in
  (s1, (flat_map navigationOf calls ++ [router_dismissTo "/(tabs)/cart"])%list).

(** A completion signal reaching the sheet of the screen. *)
Definition onSignal (sv : SV) (finished : option bool) (s : Sheet)
    : Sheet * list Navigation :=
  let '(_, s1, calls) := animationEnd sheetProps sv finished s in
  (s1, flat_map navigationOf calls).

End Screen.

(* ===================================================================== *)
(* Part IV.  The focus effect of the screen                              *)
(* ===================================================================== *)

Module FocusEffect.

(** The [visible] state of [ProductDetailsScreen] with what its focus effect
    has scheduled: the pending timeouts (by id), the number of pending
    animation-frame callbacks, and the timeout id held by the cleanup
    function of the effect that ran last. *)
Record Screen := {
  visible : bool;
  nextTimeout : nat;
  timeouts : list nat;
  frames : nat;
  cleanup : option nat
}.

(** [React.useState(false)], nothing scheduled. *)
Definition mounted : Screen :=
  {| visible := false; nextTimeout := 0; timeouts := []; frames := 0;
     cleanup := None |}.

(** [clearTimeout(timeoutId)] *)
Definition clearTimeout (id : nat) (s : Screen) : Screen :=
  {| visible := visible s; nextTimeout := nextTimeout s;
     timeouts := List.filter (fun j => negb (Nat.eqb j id)) (timeouts s);
     frames := frames s; cleanup := cleanup s |}.

(** The function the effect returns: [() => { clearTimeout(timeoutId) }].
    It runs once. *)
Definition runCleanup (s : Screen) : Screen :=
  match cleanup s with
  | Some id =>
      let s1 := clearTimeout id s in
      {| visible := visible s1; nextTimeout := nextTimeout s1;
         timeouts := timeouts s1; frames := frames s1; cleanup := None |}
  | None => s
  end.

(** The body of the effect: [setVisible(false)], then
    [setTimeout(() => requestAnimationFrame(() => setVisible(true)), 100)]. *)
Definition effect (s : Screen) : Screen :=
  let id := nextTimeout s in
  {| visible := false; nextTimeout := S id; timeouts := id :: timeouts s;
     frames := frames s; cleanup := Some id |}.

(** The screen gains focus: the cleanup of the previous run, if it is still
    due, then the effect. *)
Definition focus (s : Screen) : Screen := effect (runCleanup s).

(** The screen loses focus: the cleanup. *)
Definition blur (s : Screen) : Screen := runCleanup s.

(** A timeout comes due.  If it was not cleared, its function runs:
    [requestAnimationFrame(...)]. *)
Definition timeoutFires (id : nat) (s : Screen) : Screen :=
  if existsb (Nat.eqb id) (timeouts s) then
    {| visible := visible s; nextTimeout := nextTimeout s;
       timeouts := List.filter (fun j => negb (Nat.eqb j id)) (timeouts s);
       frames := S (frames s); cleanup := cleanup s |}
  else s.

(** The next frame: one pending frame callback runs, [setVisible(true)]. *)
Definition frameFires (s : Screen) : Screen :=
  match frames s with
  | O => s
  | S n =>
      {| visible := true; nextTimeout := nextTimeout s; timeouts := timeouts s;
         frames := n; cleanup := cleanup s |}
  end.

Inductive Event :=
| Focus
| Blur
| TimeoutFires (id : nat)
| FrameFires.

Definition handle (ev : Event) (s : Screen) : Screen :=
  match ev with
  | Focus => focus s
  | Blur => blur s
  | TimeoutFires id => timeoutFires id s
  | FrameFires => frameFires s
  end.

Definition run (evs : list Event) (s : Screen) : Screen :=
  fold_left (fun s ev => handle ev s) evs s.

(** An event of the clock: a timeout coming due, or a frame. *)
Definition isTick (ev : Event) : bool :=
  match ev with
  | TimeoutFires _ | FrameFires => true
  | _ => false
  end.

(** Every pending timeout is the one the cleanup function holds. *)
Definition tracked (s : Screen) : Prop :=
  forall id, In id (timeouts s) -> cleanup s = Some id.

End FocusEffect.

(* ===================================================================== *)
(* Sample data: a product with one option, Color, and two variants       *)
(* ===================================================================== *)

Module Sample.

Import ProductDetails.

Definition redVariant : AdminProductVariant :=
  {| id := "variant_red";
     options := Some [ {| option_id := Some "opt_color"; value := "Red" |} ];
     prices := Some [ {| currency_code := "eur"; amount := 10 |};
                      {| currency_code := "usd"; amount := 12 |} ] |}.

Definition blueVariant : AdminProductVariant :=
  {| id := "variant_blue";
     options := Some [ {| option_id := Some "opt_color"; value := "Blue" |} ];
     prices := Some [ {| currency_code := "usd"; amount := 15 |};
                      {| currency_code := "eur"; amount := 13 |} ] |}.

Definition variants : option (list AdminProductVariant) :=
  Some [redVariant; blueVariant].

Definition pickBlue : gmap string string := {[ "opt_color" := "Blue" ]}.
Definition pickGreen : gmap string string := {[ "opt_color" := "Green" ]}.

(** A variant priced under a code that is not a currency code, one whose
    first option names the prototype accessor, and settings with that code. *)
Definition euroVariant : AdminProductVariant :=
  {| id := "variant_euro";
     options := None;
     prices := Some [ {| currency_code := "euro"; amount := 5 |} ] |}.

Definition protoVariant : AdminProductVariant :=
  {| id := "variant_proto";
     options := Some [ {| option_id := Some "__proto__"; value := "Red" |};
                       {| option_id := Some "opt_color"; value := "Red" |} ];
     prices := None |}.

Definition euroSettings : Settings :=
  {| data := Some {| region := Some {| region_currency_code := Some "euro" |} |} |}.

Definition noSettings : Settings := {| data := None |}.
Definition usdSettings : Settings :=
  {| data := Some {| region := Some {| region_currency_code := Some "usd" |} |} |}.
Definition gbpSettings : Settings :=
  {| data := Some {| region := Some {| region_currency_code := Some "gbp" |} |} |}.

(** Releases of a drag: a fling, a long slow drag, a short slow drag. *)
Definition fling : BottomSheet.PanEvent :=
  {| BottomSheet.translationY := 40; BottomSheet.velocityY := 800 |}.
Definition longDrag : BottomSheet.PanEvent :=
  {| BottomSheet.translationY := 150; BottomSheet.velocityY := 20 |}.
Definition shortDrag : BottomSheet.PanEvent :=
  {| BottomSheet.translationY := 60; BottomSheet.velocityY := 120 |}.
Definition upwardDrag : BottomSheet.PanEvent :=
  {| BottomSheet.translationY := -25; BottomSheet.velocityY := -30 |}.

(** The shared values of a sheet at rest, fully shown. *)
Definition shownValues : Mutables.Values :=
  {| Mutables.offsetY := Mutables.resting 0;
     Mutables.opacity := Mutables.resting 1 |}.

(** A sheet at rest, fully shown. *)
Definition shown : BottomSheet.Sheet :=
  {| BottomSheet.translateY := BottomSheet.Value 0;
     BottomSheet.overlayOpacity := BottomSheet.Value 1 |}.

(** A variant listed under Color twice, and one with an option that has no
    id and one that has no value. *)
Definition twoToneVariant : AdminProductVariant :=
  {| id := "variant_two_tone";
     options := Some [ {| option_id := Some "opt_color"; value := "Red" |};
                       {| option_id := Some "opt_color"; value := "Blue" |} ];
     prices := None |}.

Definition sparseVariant : AdminProductVariant :=
  {| id := "variant_sparse";
     options := Some [ {| option_id := None; value := "Large" |};
                       {| option_id := Some "opt_size"; value := "" |};
                       {| option_id := Some "opt_color"; value := "Red" |} ];
     prices := None |}.

End Sample.

(* ===================================================================== *)
(* Properties of the product-details screen                              *)
(* ===================================================================== *)

Section VariantResolution.

Import ProductDetails.

(** The pair [(optionId, val)] appears in the option list of [v]. *)
Definition appearsIn (optionId val : string) (v : AdminProductVariant) : Prop :=
  exists os o, options v = Some os /\ o ∈ os /\
               option_id o = Some optionId /\ value o = val.

(** Every selected pair appears in the option list of [v]. *)
Definition supersetMatch (m : gmap string string) (v : AdminProductVariant) : Prop :=
  forall k x, m !! k = Some x -> appearsIn k x v.

(** The mapping selects a pair that [v] does not have. *)
Definition contradicts (m : gmap string string) (v : AdminProductVariant) : Prop :=
  exists k x, m !! k = Some x /\ ~ appearsIn k x v.

(** [variants] as a list: an absent list has no variant. *)
Definition variantList (variants : option (list AdminProductVariant))
    : list AdminProductVariant :=
  match variants with
  | Some vs => vs
  | None => []
  end.

(** [product.variants?.[0]] *)
Definition firstVariant (variants : option (list AdminProductVariant))
    : option AdminProductVariant :=
  match variants with
  | Some (v :: _) => Some v
  | _ => None
  end.

(** [variant.prices] as a list: an absent list has no entry. *)
Definition priceList (v : AdminProductVariant) : list AdminPrice :=
  match prices v with
  | Some ps => ps
  | None => []
  end.

(** The load effect: when the product has arrived and has a first variant,
    [setSelectedOptions(initialOptions)]; otherwise the state is kept.
    [data] is [productQuery.data], reduced to [product.variants]. *)
Definition loadEffect (data : option (option (list AdminProductVariant)))
    (prev : gmap string string) : gmap string string :=
  match data with
  | Some variants =>
      match firstVariant variants with
      | Some v => initialOptions v
      | None => prev
      end
  | None => prev
  end.

(** The reducer of the load effect keeps the option [o] under the key [k]:
    [option.value && option.option_id], with [k] the option id, and [k] is
    not ["__proto__"], the one key an assignment does not store. *)
Definition keptUnder (k : string) (o : AdminProductOptionValue) : Prop :=
  option_id o = Some k /\ k <> "" /\ value o <> "" /\ k <> "__proto__".

(** The active currency code, as the screen's source gives it: the code of
    the settings when they have a non-empty one, ["eur"] when the settings,
    their region or the code are missing or the code is empty. *)
Definition activeCode (settings : Settings) (code : string) : Prop :=
  (settingsCurrency settings = Some code /\ code <> "") \/
  ((settingsCurrency settings = None \/ settingsCurrency settings = Some "") /\
   code = "eur").

Lemma optionMatches_true k x o :
  optionMatches k x o = true <-> option_id o = Some k /\ value o = x.
Proof.
  unfold optionMatches. rewrite andb_true_iff, !bool_decide_eq_true. tauto.
Qed.

Lemma variantHasOption_true v k x :
  variantHasOption v k x = true <-> appearsIn k x v.
Proof.
  unfold variantHasOption, appearsIn. destruct (options v) as [os|]; split.
  - intros H. apply existsb_exists in H as (o & Hin & Ho).
    apply optionMatches_true in Ho as [Hk Hx].
    exists os, o. rewrite list_elem_of_In. auto.
  - intros (os' & o & Heq & Hin & Hk & Hx). injection Heq as <-.
    apply existsb_exists. exists o. split.
    + by apply list_elem_of_In.
    + by apply optionMatches_true.
  - discriminate.
  - intros (os' & o & Heq & _). discriminate.
Qed.

Lemma variantMatches_true m v :
  variantMatches m v = true <-> supersetMatch m v.
Proof.
  unfold variantMatches, supersetMatch. rewrite forallb_forall. split.
  - intros H k x Hkx. apply variantHasOption_true.
    apply (H (k, x)). apply list_elem_of_In. by apply elem_of_map_to_list.
  - intros H [k x] Hin. apply variantHasOption_true, H.
    apply elem_of_map_to_list. by apply list_elem_of_In.
Qed.

Lemma variantMatches_false m v :
  variantMatches m v = false <-> ~ supersetMatch m v.
Proof.
  rewrite <- variantMatches_true. destruct (variantMatches m v); split; congruence.
Qed.

Lemma contradicts_not_match m v : contradicts m v -> ~ supersetMatch m v.
Proof. intros (k & x & Hkx & Hno) Hall. apply Hno. by apply Hall. Qed.

Lemma variantMatches_empty v : variantMatches ∅ v = true.
Proof. unfold variantMatches. by rewrite map_to_list_empty. Qed.

(** [find] returns the first element that satisfies the predicate. *)
Lemma find_first {A : Type} (f : A -> bool) (l : list A) (a : A) :
  List.find f l = Some a ->
  exists before after, l = (before ++ a :: after)%list /\ f a = true /\
                       forall b, b ∈ before -> f b = false.
Proof.
  induction l as [|b l IH]; simpl; [discriminate|].
  destruct (f b) eqn:Hb.
  - intros [= ->]. exists [], l. split; [done|]. split; [done|].
    intros c Hc. by apply elem_of_nil in Hc.
  - intros H. destruct (IH H) as (before & after & -> & Ha & Hbefore).
    exists (b :: before), after. split; [done|]. split; [done|].
    intros c Hc. apply elem_of_cons in Hc as [->|Hc]; auto.
Qed.

Lemma find_none_iff {A : Type} (f : A -> bool) (l : list A) :
  List.find f l = None <-> forall a, a ∈ l -> f a = false.
Proof.
  split.
  - intros H a Ha. apply (find_none f l H). by apply list_elem_of_In.
  - intros H. destruct (List.find f l) as [a|] eqn:Hf; [|done].
    apply find_some in Hf as [Hin Hfa].
    rewrite (H a) in Hfa; [discriminate|]. by apply list_elem_of_In.
Qed.

End VariantResolution.

Section ProductDetailsProperties.

Import ProductDetails.

(** C1, as the claim states it, fails: with an empty selected-options
    mapping every variant passes the [every] test, so resolution returns the
    first variant of the list, not absence. *)
Lemma selectedVariant_empty_mapping_counterexample :
  selectedVariant Sample.variants ∅ = Some Sample.redVariant /\
  selectedVariant Sample.variants ∅ <> None.
Proof. split; [reflexivity | discriminate]. Qed.

(** C1 (amended): with an empty selected-options mapping, variant resolution
    returns the first variant of the list (absence only when the product has
    no variant); it returns no variant when the mapping contradicts every
    variant, that is, when for each variant some selected pair is missing
    from its option list. *)
Theorem selectedVariant_empty_or_contradicting
    (variants : option (list AdminProductVariant)) (m : gmap string string) :
  (m = ∅ -> selectedVariant variants m = firstVariant variants) /\
  ((forall v, v ∈ variantList variants -> contradicts m v) ->
   selectedVariant variants m = None).
Proof.
  split.
  - intros ->. destruct variants as [[|v vs]|]; simpl;
      rewrite ?variantMatches_empty; reflexivity.
  - intros Hall. destruct variants as [vs|]; simpl in *; [|reflexivity].
    apply find_none_iff. intros v Hv.
    apply variantMatches_false, contradicts_not_match, Hall, Hv.
Qed.

(** C2: variant resolution returns at most one variant; a returned variant
    belongs to the list and every selected (option id, value) pair appears in
    its option list; when no variant of the list contains all the selected
    pairs the result is absence (a value, not an error). *)
Theorem selectedVariant_superset_match
    (variants : option (list AdminProductVariant)) (m : gmap string string) :
  (forall v1 v2, selectedVariant variants m = Some v1 ->
                 selectedVariant variants m = Some v2 -> v1 = v2) /\
  (forall v, selectedVariant variants m = Some v ->
             v ∈ variantList variants /\ supersetMatch m v) /\
  ((forall v, v ∈ variantList variants -> ~ supersetMatch m v) ->
   selectedVariant variants m = None).
Proof.
  split; [congruence|]. split.
  - intros v Hv. destruct variants as [vs|]; simpl in *; [|discriminate].
    apply find_some in Hv as [Hin Hm]. split.
    + by apply list_elem_of_In.
    + by apply variantMatches_true.
  - intros Hall. destruct variants as [vs|]; simpl in *; [|reflexivity].
    apply find_none_iff. intros v Hv. apply variantMatches_false, Hall, Hv.
Qed.

(** Resolution picks the first variant of the list that matches. *)
Lemma selectedVariant_first_match
    (variants : option (list AdminProductVariant)) (m : gmap string string)
    (v : AdminProductVariant) :
  selectedVariant variants m = Some v ->
  exists before after,
    variantList variants = (before ++ v :: after)%list /\
    supersetMatch m v /\
    forall u, u ∈ before -> ~ supersetMatch m u.
Proof.
  destruct variants as [vs|]; simpl; [|discriminate].
  intros H. apply find_first in H as (before & after & -> & Hv & Hbefore).
  exists before, after. split; [done|]. split.
  - by apply variantMatches_true.
  - intros u Hu. by apply variantMatches_false, Hbefore.
Qed.

(** When some variant matches, resolution returns a variant. *)
Lemma selectedVariant_some
    (variants : option (list AdminProductVariant)) (m : gmap string string)
    (v : AdminProductVariant) :
  v ∈ variantList variants -> supersetMatch m v ->
  exists u, selectedVariant variants m = Some u.
Proof.
  intros Hin Hm. destruct (selectedVariant variants m) as [u|] eqn:Hsel; [eauto|].
  destruct variants as [vs|]; simpl in *.
  - rewrite find_none_iff in Hsel. apply variantMatches_true in Hm.
    rewrite (Hsel v Hin) in Hm. discriminate.
  - by apply elem_of_nil in Hin.
Qed.

(** The example of the spec: the load effect selects Red, a tap on Blue
    resolves the Blue variant, its price in the default currency is shown,
    and a press with quantity 2 submits one item for the Blue variant. *)
Example select_blue_end_to_end :
  let m := onValueChange "opt_color" "Blue" (initialOptions Sample.redVariant) in
  initialOptions Sample.redVariant = {[ "opt_color" := "Red" ]} /\
  selectedVariant Sample.variants (initialOptions Sample.redVariant)
    = Some Sample.redVariant /\
  selectedVariant Sample.variants m = Some Sample.blueVariant /\
  renderPrice Sample.variants m Sample.noSettings
    = Some {| shown_amount := 13; shown_currency := "eur" |} /\
  onPress (selectedVariant Sample.variants m) 2
    = Some {| items := [ {| quantity := 2; variant_id := "variant_blue" |} ] |}.
Proof. vm_compute. repeat split; reflexivity. Qed.

Lemma currencyCode_unset (settings : Settings) :
  settingsCurrency settings = None -> currencyCode settings = "eur".
Proof. unfold currencyCode. by intros ->. Qed.

Lemma currencyCode_set (settings : Settings) (c : string) :
  settingsCurrency settings = Some c -> c <> "" -> currencyCode settings = c.
Proof.
  unfold currencyCode. intros -> Hc. destruct c; [done | reflexivity].
Qed.

Lemma currencyCode_empty (settings : Settings) :
  settingsCurrency settings = Some "" -> currencyCode settings = "eur".
Proof. unfold currencyCode. by intros ->. Qed.

Lemma price_of_variant (v : AdminProductVariant) (code : string) :
  price (Some v) code
    = List.find (fun p => bool_decide (currency_code p = code)) (priceList v).
Proof. unfold price, priceList. by destruct (prices v). Qed.

Lemma activeCode_currencyCode (settings : Settings) (code : string) :
  activeCode settings code <-> currencyCode settings = code.
Proof.
  unfold activeCode, currencyCode.
  destruct (settingsCurrency settings) as [c|]; [destruct c as [|a c]|]; simpl.
  - split; [intros [[[= <-] H]|[_ ->]]; done | intros <-; right; auto].
  - split.
    + intros [[[= <-] _]|[[H|H] _]]; done.
    + intros <-. left. split; [done | discriminate].
  - split; [intros [[H _]|[_ ->]]; done | intros <-; right; auto].
Qed.

(** C6, as the claim states it, fails: a price entry whose currency matches
    the active code is not displayed when that code is not a currency code
    the formatter accepts; the formatter throws a RangeError. *)
Lemma displayPrice_malformed_code_counterexample :
  selectedVariant (Some [Sample.euroVariant]) ∅ = Some Sample.euroVariant /\
  currencyCode Sample.euroSettings = "euro" /\
  price (Some Sample.euroVariant) "euro"
    = Some {| currency_code := "euro"; amount := 5 |} /\
  renderPriceDisplay (Some [Sample.euroVariant]) ∅ Sample.euroSettings = RangeError /\
  renderPriceDisplay (Some [Sample.euroVariant]) ∅ Sample.euroSettings
    <> Formatted 5 "euro".
Proof. repeat split; (reflexivity || discriminate). Qed.

(** C6 (amended): for a resolved variant [v] and the active currency code
    (the code of the settings when they give a non-empty one, ["eur"] when
    they give none): if [v] has a price entry in that currency, the first
    such entry is the one displayed, as its amount formatted in the currency
    when the code is a well-formed currency code (three letters), and the
    formatter throws a RangeError when it is not; if no entry matches, no
    price is rendered. *)
Theorem displayPrice_matching_entry
    (variants : option (list AdminProductVariant)) (m : gmap string string)
    (settings : Settings) (v : AdminProductVariant) (code : string) :
  selectedVariant variants m = Some v ->
  activeCode settings code ->
  ((exists p, p ∈ priceList v /\ currency_code p = code) ->
   exists q before after,
     priceList v = (before ++ q :: after)%list /\
     (forall b, b ∈ before -> currency_code b <> code) /\
     currency_code q = code /\
     price (Some v) code = Some q /\
     renderPriceDisplay variants m settings
       = if wellFormedCurrencyCode code then Formatted (amount q) code
         else RangeError) /\
  ((forall p, p ∈ priceList v -> currency_code p <> code) ->
   renderPriceDisplay variants m settings = NoPrice).
Proof.
  intros Hsel Hcode. apply activeCode_currencyCode in Hcode.
  unfold renderPriceDisplay, displayPrice. rewrite Hsel, Hcode.
  rewrite price_of_variant. split.
  - intros (p & Hin & Hp).
    destruct (List.find (fun p => bool_decide (currency_code p = code)) (priceList v))
      as [q|] eqn:Hfind.
    + destruct (find_first _ _ _ Hfind) as (before & after & Heq & Hq & Hbefore).
      apply bool_decide_eq_true in Hq.
      exists q, before, after. split; [done|]. split.
      * intros b Hb. specialize (Hbefore b Hb). by apply bool_decide_eq_false in Hbefore.
      * split; [done|]. split; [done|]. simpl. by rewrite Hq.
    + rewrite find_none_iff in Hfind. specialize (Hfind p Hin).
      apply bool_decide_eq_false in Hfind. contradiction.
  - intros Hnone.
    assert (List.find (fun p => bool_decide (currency_code p = code)) (priceList v) = None)
      as ->; [|done].
    apply find_none_iff. intros p Hp. apply bool_decide_eq_false. by apply Hnone.
Qed.

(** Witness of C6 (amended): without settings the code is ["eur"] and the
    euro price of the Blue variant is displayed; under settings that ask
    for pounds, which the variant has no price in, nothing is. *)
Lemma displayPrice_matching_entry_witness :
  activeCode Sample.noSettings "eur" /\
  renderPriceDisplay Sample.variants Sample.pickBlue Sample.noSettings
    = Formatted 13 "eur" /\
  renderPriceDisplay Sample.variants Sample.pickBlue Sample.gbpSettings = NoPrice.
Proof.
  assert (activeCode Sample.noSettings "eur") as Heur by (right; split; [by left | reflexivity]).
  assert (activeCode Sample.gbpSettings "gbp") as Hgbp by (left; split; [reflexivity | discriminate]).
  split; [exact Heur|]. split.
  - destruct (displayPrice_matching_entry Sample.variants Sample.pickBlue
                Sample.noSettings Sample.blueVariant "eur" eq_refl Heur) as [Hsome _].
    destruct Hsome as (q & before & after & Heq & Hbefore & Hq & Hprice & Hshown).
    + exists {| currency_code := "eur"; amount := 13 |}. split; [|reflexivity].
      right. constructor.
    + rewrite Hshown. vm_compute in Hprice. injection Hprice as <-. reflexivity.
  - destruct (displayPrice_matching_entry Sample.variants Sample.pickBlue
                Sample.gbpSettings Sample.blueVariant "gbp" eq_refl Hgbp) as [_ Hnone].
    apply Hnone. intros p Hp.
    apply elem_of_cons in Hp as [->|Hp]; [discriminate|].
    apply elem_of_cons in Hp as [->|Hp]; [discriminate|].
    apply elem_of_nil in Hp. destruct Hp.
Defined.

(** C7: a press of the add-to-cart button while a variant [v] is resolved
    and the quantity is [q] submits a payload with exactly one item,
    [{quantity: q, variant_id: v.id}]; while no variant is resolved the
    button is disabled and a press submits nothing. *)
Theorem onPress_submits_one_item
    (variants : option (list AdminProductVariant)) (m : gmap string string) (q : Z) :
  (forall v, selectedVariant variants m = Some v ->
     buttonDisabled (selectedVariant variants m) = false /\
     onPress (selectedVariant variants m) q
       = Some {| items := [ {| quantity := q; variant_id := id v |} ] |}) /\
  (selectedVariant variants m = None ->
     buttonDisabled (selectedVariant variants m) = true /\
     onPress (selectedVariant variants m) q = None).
Proof. split; [intros v ->|intros ->]; by split. Qed.

End ProductDetailsProperties.

(* ===================================================================== *)
(* Properties of the bottom sheet                                        *)
(* ===================================================================== *)

Section BottomSheetProperties.

Import BottomSheet.

Variable p : Props.

Lemma gt_true (a b : Q) : gt a b = true <-> (b < a)%Q.
Proof.
  unfold gt. rewrite negb_true_iff. split.
  - intros H. apply Qnot_le_lt. intros Hle.
    apply Qle_bool_iff in Hle. congruence.
  - intros H. destruct (Qle_bool a b) eqn:Hle; [|reflexivity].
    apply Qle_bool_iff in Hle. exfalso. exact (Qlt_not_le _ _ H Hle).
Qed.

Lemma gt_false (a b : Q) : gt a b = false <-> (a <= b)%Q.
Proof.
  unfold gt. rewrite negb_false_iff. apply Qle_bool_iff.
Qed.

Lemma shouldClose_true (e : PanEvent) :
  shouldClose e = true <-> (100 < translationY e \/ 500 < velocityY e)%Q.
Proof. unfold shouldClose. rewrite orb_true_iff, !gt_true. tauto. Qed.

Lemma shouldClose_false (e : PanEvent) :
  shouldClose e = false <-> (translationY e <= 100 /\ velocityY e <= 500)%Q.
Proof. unfold shouldClose. rewrite orb_false_iff, !gt_false. tauto. Qed.

(** A completion worklet of this file does nothing unless the animation
    finished. *)
Lemma runCallback_unfinished (a : Animation) (finished : option bool) :
  isFinished finished = false -> runCallback p a finished = [].
Proof.
  intros H. destruct a as [to dur [c|]| |]; simpl; try reflexivity.
  destruct c as [|[cb|]]; simpl; rewrite ?H; reflexivity.
Qed.

(** Assigning to a shared value makes no call: the animation it cancels is
    told that it did not finish. *)
Lemma assign_spec (sv : SV) (x : Assigned) (s : Sheet) :
  assign p sv x s = (tt, put sv (contentOf x) s, []).
Proof.
  unfold assign. destruct (get sv s); try reflexivity.
  by rewrite runCallback_unfinished.
Qed.

Lemma assign_both (x y : Assigned) (s : Sheet) :
  bind (assign p TranslateY x) (fun _ => assign p OverlayOpacity y) s
    = (tt, {| translateY := contentOf x; overlayOpacity := contentOf y |}, []).
Proof. unfold bind. by rewrite !assign_spec. Qed.

Lemma run_cons (ev : Event) (evs : list Event) (s : Sheet) :
  run p (ev :: evs) s =
    let '(_, s1, c1) := handle p ev s in
    let '(_, s2, c2) := run p evs s1 in
    (tt, s2, (c1 ++ c2)%list).
Proof.
  simpl. unfold bind. destruct (handle p ev s) as [[[] s1] c1].
  by destruct (run p evs s1) as [[[] s2] c2].
Qed.

Lemma run_app (l1 l2 : list Event) (s : Sheet) :
  stateAfter p (l1 ++ l2) s = stateAfter p l2 (stateAfter p l1 s) /\
  callsOf p (l1 ++ l2) s
    = (callsOf p l1 s ++ callsOf p l2 (stateAfter p l1 s))%list.
Proof.
  unfold stateAfter, callsOf. revert s.
  induction l1 as [|ev l1 IH]; intros s; [done|].
  rewrite <- app_comm_cons, !run_cons.
  destruct (handle p ev s) as [[[] s1] c1].
  specialize (IH s1).
  destruct (run p (l1 ++ l2) s1) as [[[] s2] c2].
  destruct (run p l1 s1) as [[[] s3] c3]. simpl in *.
  destruct IH as [-> ->]. by rewrite app_assoc.
Qed.

Lemma stateAfter_app (l1 l2 : list Event) (s : Sheet) :
  stateAfter p (l1 ++ l2) s = stateAfter p l2 (stateAfter p l1 s).
Proof. apply run_app. Qed.

Lemma callsOf_app (l1 l2 : list Event) (s : Sheet) :
  callsOf p (l1 ++ l2) s
    = (callsOf p l1 s ++ callsOf p l2 (stateAfter p l1 s))%list.
Proof. apply run_app. Qed.

Lemma callsOf_cons (ev : Event) (evs : list Event) (s : Sheet) :
  callsOf p (ev :: evs) s
    = (snd (handle p ev s) ++ callsOf p evs (snd (fst (handle p ev s))))%list.
Proof.
  unfold callsOf. rewrite run_cons.
  destruct (handle p ev s) as [[[] s1] c1]. simpl.
  by destruct (run p evs s1) as [[[] s2] c2].
Qed.

Lemma stateAfter_cons (ev : Event) (evs : list Event) (s : Sheet) :
  stateAfter p (ev :: evs) s = stateAfter p evs (snd (fst (handle p ev s))).
Proof.
  unfold stateAfter. rewrite run_cons.
  destruct (handle p ev s) as [[[] s1] c1]. simpl.
  by destruct (run p evs s1) as [[[] s2] c2].
Qed.

Lemma pendingCalls_settle (a : Animation) (finished finished' : option bool) :
  pendingCalls p (settle a finished) finished' = [].
Proof. unfold settle. by destruct (isFinished finished), a. Qed.

(** Completion signals reaching a sheet whose vertical offset carries no
    completion worklet: only the first signal for the overlay opacity can
    make calls, those of the worklet installed there. *)
Lemma callsOf_signals (l : list (SV * option bool)) (s : Sheet) (cs : list Call) :
  (forall finished, pendingCalls p (translateY s) finished = []) ->
  (forall finished,
     pendingCalls p (overlayOpacity s) finished = if isFinished finished then cs else []) ->
  callsOf p (signals l) s = if opacityFinished l then cs else [].
Proof.
  revert s cs. induction l as [|[sv finished] l IH]; intros s cs Hty Hop; [done|].
  change (signals ((sv, finished) :: l)) with (AnimationEnd sv finished :: signals l).
  rewrite callsOf_cons. destruct s as [ty op]. simpl in Hty, Hop.
  pose proof (Hty finished) as Hc1. pose proof (Hop finished) as Hc2.
  destruct sv; simpl.
  - destruct ty as [v|a|a]; simpl in *; try (by apply IH).
    rewrite Hc1. simpl. apply IH; simpl; [|done].
    intros f. apply pendingCalls_settle.
  - assert (Hrest : callsOf p (signals l)
                      (snd (fst (animationEnd p OverlayOpacity finished
                                   {| translateY := ty; overlayOpacity := op |}))) = []).
    { rewrite (IH _ []); [by destruct (opacityFinished l)| |].
      - by destruct op.
      - intros f. destruct op as [v|a|a]; simpl;
          rewrite ?pendingCalls_settle; by destruct (isFinished f). }
    unfold handle in *. rewrite Hrest, app_nil_r.
    destruct op as [v|a|a]; simpl in *; try done;
      destruct (isFinished finished); done.
Qed.

Lemma onChange_spec (e : PanEvent) (s : Sheet) :
  onChange p e s =
    if gt (translationY e) 0
    then (tt, {| translateY := Value (translationY e);
                 overlayOpacity := Value (fadeOpacity (translationY e)) |}, [])
    else (tt, s, []).
Proof.
  unfold onChange. destruct (gt (translationY e) 0); [|reflexivity].
  apply assign_both.
Qed.

Lemma onFinalize_spec (e : PanEvent) (s : Sheet) :
  onFinalize p e s =
    if shouldClose e then
      (tt, {| translateY :=
                if gt (Qabs (velocityY e)) 500
                then Running (withDecay (velocityY e) (0%Q, 300%Q))
                else Running (withTiming 300 250 None);
              overlayOpacity := Running (withTiming 0 250 (Some closeWhenFinished)) |}, [])
    else
      (tt, {| translateY := Running (withSpring 0 100 8);
              overlayOpacity := Running (withSpring 1 100 8) |}, []).
Proof.
  unfold onFinalize. destruct (shouldClose e).
  - destruct (gt (Qabs (velocityY e)) 500); apply assign_both.
  - apply assign_both.
Qed.

Lemma animateOut_spec (cb : option Thunk) (s : Sheet) :
  animateOut p cb s =
    (tt, {| translateY := Running (withTiming 300 250 None);
            overlayOpacity :=
              Running (withTiming 0 250 (Some (callbackWhenFinished cb))) |}, []).
Proof. apply assign_both. Qed.

(** The change events of a drag make no call. *)
Lemma callsOf_changes (changes : list PanEvent) (s : Sheet) :
  callsOf p (map PanChange changes) s = [].
Proof.
  revert s. induction changes as [|e changes IH]; intros s; [done|].
  simpl map. rewrite callsOf_cons. simpl handle. rewrite onChange_spec.
  destruct (gt (translationY e) 0); simpl; apply IH.
Qed.

Lemma drag_spec (changes : list PanEvent) (release : PanEvent) (s : Sheet) :
  stateAfter p (drag changes release) s
    = snd (fst (onFinalize p release (stateAfter p (map PanChange changes) s))) /\
  callsOf p (drag changes release) s = [].
Proof.
  unfold drag. rewrite stateAfter_app, callsOf_app, callsOf_changes. split.
  - by rewrite stateAfter_cons.
  - rewrite callsOf_cons. simpl handle. rewrite onFinalize_spec.
    by destruct (shouldClose release).
Qed.

Lemma release_le_peak (changes : list PanEvent) (release : PanEvent) :
  (translationY release <= peakDistance changes release)%Q.
Proof.
  unfold peakDistance. induction changes as [|c changes IH]; simpl.
  - apply Qle_refl.
  - eapply Qle_trans; [exact IH|]. apply Q.le_max_r.
Qed.

Lemma fadeOpacity_floor (d : Q) : (3 # 10 <= fadeOpacity d)%Q.
Proof. apply Q.le_max_l. Qed.

Lemma fadeOpacity_decreasing (d1 d2 : Q) :
  (d1 <= d2)%Q -> (fadeOpacity d2 <= fadeOpacity d1)%Q.
Proof. intros H. apply Q.max_le_compat_l. unfold Qdiv. change (/ 200)%Q with (1 # 200)%Q. lra. Qed.

Lemma fadeOpacity_proportional (d : Q) :
  (d <= 140)%Q -> (fadeOpacity d == 1 - d / 200)%Q.
Proof. intros H. apply Q.max_r. unfold Qdiv. change (/ 200)%Q with (1 # 200)%Q. lra. Qed.

(** C8: a gesture-change event with translation [d > 0] sets the vertical
    offset to [d] and the overlay opacity to [max(0.3, 1 - d / 200)], and
    makes no call; an event with [d <= 0] leaves the sheet as it was. *)
Theorem onChange_honors_downward_drag (e : PanEvent) (s : Sheet) :
  ((0 < translationY e)%Q ->
   onChange p e s =
     (tt, {| translateY := Value (translationY e);
             overlayOpacity := Value (Qmax (3 # 10) (1 - translationY e / 200)) |}, [])) /\
  ((translationY e <= 0)%Q -> onChange p e s = (tt, s, [])).
Proof.
  rewrite onChange_spec. split; intros H.
  - apply gt_true in H. by rewrite H.
  - apply gt_false in H. by rewrite H.
Qed.

(** C4: a drag whose peak downward distance is at most 100 and whose release
    speed is at most 500 leaves both shared values on their springs, towards
    offset 0 and opacity 1; no call is made during the drag nor by any
    completion signal after it; when the springs finish the sheet rests at
    offset 0 and opacity 1. *)
Theorem pan_release_snaps_back
    (changes : list PanEvent) (release : PanEvent) (s : Sheet)
    (l : list (SV * option bool)) :
  (peakDistance changes release <= 100)%Q ->
  (Qabs (velocityY release) <= 500)%Q ->
  stateAfter p (drag changes release) s
    = {| translateY := Running (withSpring 0 100 8);
         overlayOpacity := Running (withSpring 1 100 8) |} /\
  callsOf p (drag changes release ++ signals l) s = [] /\
  stateAfter p (drag changes release ++
                [AnimationEnd TranslateY (Some true);
                 AnimationEnd OverlayOpacity (Some true)]) s
    = {| translateY := Value 0; overlayOpacity := Value 1 |}.
Proof.
  intros Hpeak Hspeed.
  assert (shouldClose release = false) as Hno.
  { apply shouldClose_false. split.
    - eapply Qle_trans; [apply release_le_peak | exact Hpeak].
    - eapply Qle_trans; [apply Qle_Qabs | exact Hspeed]. }
  destruct (drag_spec changes release s) as [Hstate Hcalls].
  rewrite onFinalize_spec, Hno in Hstate. simpl in Hstate.
  split; [done|]. split.
  - rewrite callsOf_app, Hcalls, Hstate. simpl app.
    rewrite (callsOf_signals l _ []); [by destruct (opacityFinished l)|done|].
    intros f. simpl. by destruct (isFinished f).
  - rewrite stateAfter_app, Hstate. reflexivity.
Qed.

End BottomSheetProperties.

(* ===================================================================== *)
(* The properties at the sample data                                     *)
(* ===================================================================== *)

Section Instances.

Import ProductDetails BottomSheet.

(** Case analysis on a member [H : v ∈ l] of a list given by its elements:
    [tac] is run once for each element. *)
Ltac each_member H tac :=
  repeat (apply elem_of_cons in H as [->|H]; [tac|]);
  apply elem_of_nil in H; destruct H.

(** Witness of C1 (amended): with nothing selected the first variant is
    resolved; a selection of Green, which no variant offers, resolves
    nothing. *)
Lemma selectedVariant_empty_or_contradicting_witness :
  selectedVariant Sample.variants ∅ = Some Sample.redVariant /\
  selectedVariant Sample.variants Sample.pickGreen = None.
Proof.
  destruct (selectedVariant_empty_or_contradicting Sample.variants ∅) as [Hempty _].
  destruct (selectedVariant_empty_or_contradicting Sample.variants Sample.pickGreen)
    as [_ Hcontra].
  split.
  - rewrite (Hempty eq_refl). reflexivity.
  - apply Hcontra. intros v Hv. exists "opt_color", "Green".
    split; [apply lookup_singleton_eq|]. rewrite <- variantHasOption_true.
    each_member Hv ltac:(vm_compute; discriminate).
Defined.

(** Witness of C2: a selection of Blue resolves the Blue variant, which has
    the selected pair; a selection of Green resolves nothing. *)
Lemma selectedVariant_superset_match_witness :
  selectedVariant Sample.variants Sample.pickBlue = Some Sample.blueVariant /\
  supersetMatch Sample.pickBlue Sample.blueVariant /\
  selectedVariant Sample.variants Sample.pickGreen = None.
Proof.
  destruct (selectedVariant_superset_match Sample.variants Sample.pickBlue)
    as (_ & Hsome & _).
  destruct (Hsome Sample.blueVariant eq_refl) as [_ Hmatch].
  destruct (selectedVariant_superset_match Sample.variants Sample.pickGreen)
    as (_ & _ & Hnone).
  split; [reflexivity|]. split; [exact Hmatch|].
  apply Hnone. intros v Hv. apply variantMatches_false.
  each_member Hv ltac:(vm_compute; reflexivity).
Defined.

(** Witness of C7: a press with Blue selected and quantity 2; a press with
    nothing resolved. *)
Lemma onPress_submits_one_item_witness :
  onPress (selectedVariant Sample.variants Sample.pickBlue) 2
    = Some {| items := [ {| quantity := 2; variant_id := "variant_blue" |} ] |} /\
  buttonDisabled (selectedVariant Sample.variants Sample.pickGreen) = true /\
  onPress (selectedVariant Sample.variants Sample.pickGreen) 2 = None.
Proof.
  destruct (onPress_submits_one_item Sample.variants Sample.pickBlue 2) as [Hsome _].
  destruct (Hsome Sample.blueVariant eq_refl) as [_ Hpayload].
  destruct (onPress_submits_one_item Sample.variants Sample.pickGreen 2) as [_ Hnone].
  split; [exact Hpayload|]. exact (Hnone eq_refl).
Defined.

(** Witness of C4: a drag that stays within 60 and is released slowly
    springs back. *)
Lemma pan_release_snaps_back_witness :
  (peakDistance [Sample.upwardDrag; Sample.shortDrag] Sample.shortDrag <= 100)%Q /\
  (Qabs (velocityY Sample.shortDrag) <= 500)%Q /\
  stateAfter Screen.sheetProps
    (drag [Sample.upwardDrag; Sample.shortDrag] Sample.shortDrag ++
     [AnimationEnd TranslateY (Some true); AnimationEnd OverlayOpacity (Some true)])
    Sample.shown
  = Sample.shown.
Proof.
  assert (peakDistance [Sample.upwardDrag; Sample.shortDrag] Sample.shortDrag <= 100)%Q
    as Hpeak by (vm_compute; discriminate).
  assert (Qabs (velocityY Sample.shortDrag) <= 500)%Q
    as Hspeed by (vm_compute; discriminate).
  split; [exact Hpeak|]. split; [exact Hspeed|].
  destruct (pan_release_snaps_back Screen.sheetProps
              [Sample.upwardDrag; Sample.shortDrag] Sample.shortDrag Sample.shown []
              Hpeak Hspeed) as (_ & _ & Hrest).
  exact Hrest.
Defined.

(** Witness of C8: a change event 60 down on a shown sheet, and one 25
    up. *)
Lemma onChange_honors_downward_drag_witness :
  onChange Screen.sheetProps Sample.shortDrag Sample.shown
    = (tt, {| translateY := Value 60;
              overlayOpacity := Value (Qmax (3 # 10) (1 - 60 / 200)) |}, []) /\
  onChange Screen.sheetProps Sample.upwardDrag Sample.shown = (tt, Sample.shown, []).
Proof.
  destruct (onChange_honors_downward_drag Screen.sheetProps Sample.shortDrag Sample.shown)
    as [Hdown _].
  destruct (onChange_honors_downward_drag Screen.sheetProps Sample.upwardDrag Sample.shown)
    as [_ Hup].
  split.
  - apply Hdown. reflexivity.
  - apply Hup. vm_compute. discriminate.
Defined.

(** C5 fails on the code.  [onSuccess] calls [animateOut] without a callback
    and then [router.dismissTo] in the same handler: the navigation call is
    made while the exit animation of the overlay is still running, and the
    completion signal of that animation triggers nothing. *)
Theorem onSuccess_navigates_before_exit_animation_ends (s : Sheet) :
  exists s1,
    Screen.onSuccess s = (s1, [Screen.router_dismissTo "/(tabs)/cart"]) /\
    overlayOpacity s1 = Running (withTiming 0 250 (Some (callbackWhenFinished None))) /\
    forall sv finished, snd (Screen.onSignal sv finished s1) = [].
Proof.
  unfold Screen.onSuccess. rewrite animateOut_spec. eexists. split; [reflexivity|].
  split; [reflexivity|]. by intros [] finished.
Qed.

(** The sheet of the screen opens, is dragged 150 down and released: the
    exit animation runs and [onClose] is called when it finishes. *)
Example long_drag_run :
  stateAfter Screen.sheetProps
    [BecomesVisible; AnimationEnd TranslateY (Some true);
     AnimationEnd OverlayOpacity (Some true)] initial = Sample.shown /\
  run Screen.sheetProps
    [PanChange Sample.longDrag; PanFinalize Sample.longDrag;
     AnimationEnd OverlayOpacity (Some true)] Sample.shown
  = (tt, {| translateY := Running (withTiming 300 250 None);
            overlayOpacity := Value 0 |}, [onClose_called]).
Proof. split; reflexivity. Qed.

(** A new drag during the exit animation cancels it: the later completion
    signal finds no animation and [onClose] is not called. *)
Example interrupted_exit_run :
  callsOf Screen.sheetProps
    [PanFinalize Sample.fling; PanChange Sample.shortDrag;
     AnimationEnd OverlayOpacity (Some true)] Sample.shown = [] /\
  callsOf Screen.sheetProps
    [PanFinalize Sample.fling; AnimationEnd OverlayOpacity (Some false);
     AnimationEnd OverlayOpacity (Some true)] Sample.shown = [].
Proof. split; reflexivity. Qed.

End Instances.

(* ===================================================================== *)
(* Further properties of the product-details screen                      *)
(* ===================================================================== *)

Section SelectionProperties.

Import ProductDetails.

(** [some] holds exactly when [find] finds. *)
Lemma existsb_find {A : Type} (f : A -> bool) (l : list A) :
  existsb f l = match List.find f l with Some _ => true | None => false end.
Proof.
  induction l as [|a l IH]; simpl; [reflexivity|].
  destruct (f a); [reflexivity | exact IH].
Qed.

(** What the reducer of the load effect keeps: every entry comes from an
    option of the list, with a non-empty id and a non-empty value. *)
Lemma initialOptionsStep_entries (all os : list AdminProductOptionValue)
    (acc : gmap string string) :
  (forall o, o ∈ os -> o ∈ all) ->
  (forall k x, acc !! k = Some x ->
     (exists o, o ∈ all /\ option_id o = Some k /\ value o = x) /\ k <> "" /\ x <> "") ->
  forall k x, fold_left initialOptionsStep os acc !! k = Some x ->
    (exists o, o ∈ all /\ option_id o = Some k /\ value o = x) /\ k <> "" /\ x <> "".
Proof.
  revert acc. induction os as [|o os IH]; intros acc Hsub Hacc; simpl; [exact Hacc|].
  apply IH.
  - intros o' Ho'. apply Hsub. by right.
  - intros k x. unfold initialOptionsStep.
    destruct (option_id o) as [oid|] eqn:Hoid; [|apply Hacc].
    destruct (truthy (value o)) eqn:Hv; simpl; [|apply Hacc].
    destruct (truthy oid) eqn:Hk; [|apply Hacc].
    unfold assignKey. case_bool_decide; [apply Hacc|].
    destruct (decide (oid = k)) as [->|Hne].
    + rewrite lookup_insert_eq. intros [= <-]. split.
      * exists o. split; [apply Hsub; by left | done].
      * split; [by destruct k | by destruct (value o)].
    + rewrite lookup_insert_ne by done. apply Hacc.
Qed.

Lemma initialOptions_entries (v : AdminProductVariant) (k x : string) :
  initialOptions v !! k = Some x -> appearsIn k x v /\ k <> "" /\ x <> "".
Proof.
  unfold initialOptions, appearsIn. destruct (options v) as [os|] eqn:Hos.
  - intros H.
    destruct (initialOptionsStep_entries os os ∅ (fun o Ho => Ho)
                (fun k x Hkx => ltac:(by rewrite lookup_empty in Hkx)) k x H)
      as [(o & Hin & Hk & Hx) Hne].
    split; [|exact Hne]. by exists os, o.
  - by rewrite lookup_empty.
Qed.

(** X1: once the product has arrived with at least one variant, the load
    effect selects the options of the first variant, and with that selection
    the first variant is the one resolved, so the button is enabled. *)
Theorem loadEffect_resolves_first_variant
    (v : AdminProductVariant) (vs : list AdminProductVariant)
    (prev : gmap string string) :
  let m := loadEffect (Some (Some (v :: vs))) prev in
  m = initialOptions v /\
  selectedVariant (Some (v :: vs)) m = Some v /\
  buttonDisabled (selectedVariant (Some (v :: vs)) m) = false.
Proof.
  simpl. split; [reflexivity|].
  assert (variantMatches (initialOptions v) v = true) as Hm.
  { apply variantMatches_true. intros k x Hkx.
    by apply initialOptions_entries in Hkx as [Hin _]. }
  by rewrite Hm.
Qed.

Lemma truthy_true (s : string) : truthy s = true <-> s <> "".
Proof. destruct s; simpl; split; (done || discriminate). Qed.

Lemma initialOptionsStep_lookup (acc : gmap string string)
    (o : AdminProductOptionValue) (k : string) :
  (keptUnder k o -> initialOptionsStep acc o !! k = Some (value o)) /\
  (~ keptUnder k o -> initialOptionsStep acc o !! k = acc !! k).
Proof.
  unfold keptUnder, initialOptionsStep, assignKey. split.
  - intros (-> & Hk & Hv & Hproto). apply truthy_true in Hk, Hv.
    rewrite Hk, Hv. simpl. rewrite bool_decide_eq_false_2 by done.
    apply lookup_insert_eq.
  - intros Hno. destruct (option_id o) as [oid|]; [|reflexivity].
    destruct (truthy (value o)) eqn:Hv; simpl; [|reflexivity].
    destruct (truthy oid) eqn:Hk; [|reflexivity].
    apply truthy_true in Hv, Hk.
    case_bool_decide as Hproto; [reflexivity|].
    destruct (decide (oid = k)) as [->|Hne]; [by destruct Hno|].
    by apply lookup_insert_ne.
Qed.

Lemma keptUnder_dec (k : string) (o : AdminProductOptionValue) :
  keptUnder k o \/ ~ keptUnder k o.
Proof.
  unfold keptUnder.
  destruct (decide (option_id o = Some k)); [|right; tauto].
  destruct (decide (k = "")); [right; tauto|].
  destruct (decide (value o = "")); [right; tauto|].
  destruct (decide (k = "__proto__")); [right; tauto|]. by left.
Qed.

Lemma initialOptions_fold_last (os : list AdminProductOptionValue) (k x : string) :
  fold_left initialOptionsStep os ∅ !! k = Some x <->
  exists before o after,
    os = (before ++ o :: after)%list /\ keptUnder k o /\ value o = x /\
    forall o', o' ∈ after -> ~ keptUnder k o'.
Proof.
  induction os as [|o os IH] using rev_ind.
  - simpl. rewrite lookup_empty. split; [discriminate|].
    intros (before & o & after & Heq & _). by destruct before.
  - rewrite fold_left_app. simpl.
    destruct (initialOptionsStep_lookup (fold_left initialOptionsStep os ∅) o k)
      as [Hkept Hskip].
    destruct (keptUnder_dec k o) as [Hk|Hk].
    + rewrite (Hkept Hk). split.
      * intros [= <-]. exists os, o, []. split; [done|]. split; [done|].
        split; [done|]. intros o' Ho'. by apply elem_of_nil in Ho'.
      * intros (before & o1 & after & Heq & Hk1 & Hx & Hafter).
        destruct after as [|a after _] using rev_ind.
        -- apply app_inj_tail in Heq as [_ ->]. by rewrite Hx.
        -- change (before ++ o1 :: after ++ [a])%list
             with (before ++ (o1 :: after) ++ [a])%list in Heq.
           rewrite app_assoc in Heq. apply app_inj_tail in Heq as [_ ->].
           exfalso. apply (Hafter a); [|exact Hk].
           apply elem_of_app. right. by left.
    + rewrite (Hskip Hk), IH. split.
      * intros (before & o1 & after & -> & Hk1 & Hx & Hafter).
        exists before, o1, (after ++ [o])%list. split; [by rewrite <- app_assoc|].
        split; [done|]. split; [done|].
        intros o' Ho'. apply elem_of_app in Ho' as [Ho'|Ho']; [by apply Hafter|].
        apply list_elem_of_singleton in Ho' as ->. exact Hk.
      * intros (before & o1 & after & Heq & Hk1 & Hx & Hafter).
        destruct after as [|a after _] using rev_ind.
        -- apply app_inj_tail in Heq as [_ ->]. contradiction.
        -- change (before ++ o1 :: after ++ [a])%list
             with (before ++ (o1 :: after) ++ [a])%list in Heq.
           rewrite app_assoc in Heq. apply app_inj_tail in Heq as [-> ->].
           exists before, o1, after. split; [done|]. split; [done|].
           split; [done|]. intros o' Ho'. apply Hafter.
           apply elem_of_app. by left.
Qed.

(** X2: the initial selection maps an option id [k] to [x] exactly when [k]
    is not ["__proto__"] and [x] is the value of the last option of the
    variant that carries the id [k] with a non-empty id and a non-empty
    value: options without an id, with an empty value or with the id
    ["__proto__"] are skipped, and of two options with one id the later one
    wins.  A variant without an option list gives the empty selection. *)
Theorem initialOptions_last_wins (v : AdminProductVariant) (k x : string) :
  initialOptions v !! k = Some x <->
  exists before o after,
    options v = Some (before ++ o :: after)%list /\ keptUnder k o /\ value o = x /\
    forall o', o' ∈ after -> ~ keptUnder k o'.
Proof.
  unfold initialOptions. destruct (options v) as [os|].
  - rewrite initialOptions_fold_last. split.
    + intros (before & o & after & -> & H). by exists before, o, after.
    + intros (before & o & after & [= ->] & H). by exists before, o, after.
  - rewrite lookup_empty. split; [discriminate|].
    intros (before & o & after & Heq & _). discriminate.
Qed.

(** X3: the option picker shows a value at full opacity exactly when a tap
    on it would resolve a variant, and dims it exactly when the tap would
    leave no variant resolved. *)
Theorem valueClassName_available
    (variants : option (list AdminProductVariant)) (m : gmap string string)
    (k x : string) :
  (valueClassName variants m k x = None <->
   exists v, selectedVariant variants (onValueChange k x m) = Some v) /\
  (valueClassName variants m k x = Some "opacity-50" <->
   selectedVariant variants (onValueChange k x m) = None).
Proof.
  unfold valueClassName, selectedVariant, onValueChange.
  destruct variants as [vs|].
  - rewrite existsb_find.
    destruct (List.find (variantMatches (<[k:=x]> m)) vs) as [v|]; split; split;
      try done; try (intros [u Hu]; done); eauto.
  - split; split; try done. intros [u Hu]; done.
Qed.

(** X4: after a tap on value [x] of option [k], the picker reports [x] as
    the selected value of [k] and the selections of the other options are
    kept; a variant resolved after the tap has the pair [(k, x)] and every
    pair selected before for another option. *)
Theorem onValueChange_honored
    (variants : option (list AdminProductVariant)) (m : gmap string string)
    (k x : string) :
  selectedValue (onValueChange k x m) k = Some x /\
  (forall k', k' <> k ->
     selectedValue (onValueChange k x m) k' = selectedValue m k') /\
  (forall v, selectedVariant variants (onValueChange k x m) = Some v ->
     appearsIn k x v /\
     forall k' x', k' <> k -> m !! k' = Some x' -> appearsIn k' x' v).
Proof.
  unfold selectedValue, onValueChange. split; [apply lookup_insert_eq|]. split.
  - intros k' Hne. by apply lookup_insert_ne.
  - intros v Hv. destruct variants as [vs|]; simpl in Hv; [|discriminate].
    apply find_some in Hv as [_ Hm]. apply variantMatches_true in Hm. split.
    + apply Hm, lookup_insert_eq.
    + intros k' x' Hne Hk'. apply Hm. by rewrite lookup_insert_ne.
Qed.

(** X6: a price is rendered only for a resolved variant, it is the amount
    of one of that variant's price entries, and both the entry and the text
    carry the active currency code. *)
Theorem renderPrice_sound
    (variants : option (list AdminProductVariant)) (m : gmap string string)
    (settings : Settings) (t : PriceText) :
  renderPrice variants m settings = Some t ->
  exists v p,
    selectedVariant variants m = Some v /\
    p ∈ priceList v /\
    currency_code p = currencyCode settings /\
    t = {| shown_amount := amount p; shown_currency := currencyCode settings |}.
Proof.
  unfold renderPrice. destruct (selectedVariant variants m) as [v|]; [|discriminate].
  rewrite price_of_variant.
  destruct (List.find _ (priceList v)) as [p|] eqn:Hfind; [|discriminate].
  apply find_some in Hfind as [Hin Hp]. apply bool_decide_eq_true in Hp.
  simpl. intros [= <-]. exists v, p. split; [done|]. split.
  - by apply list_elem_of_In.
  - split; [done|]. by rewrite Hp.
Qed.

(** X7: the active currency code is never empty; it is the code of the
    settings whenever they give a non-empty one, and ["eur"] whenever the
    settings, their region or the code are missing or the code is empty. *)
Theorem currencyCode_nonempty (settings : Settings) :
  currencyCode settings <> "" /\
  (forall c, settingsCurrency settings = Some c -> c <> "" ->
     currencyCode settings = c) /\
  (settingsCurrency settings = None \/ settingsCurrency settings = Some "" ->
   currencyCode settings = "eur").
Proof.
  unfold currencyCode. destruct (settingsCurrency settings) as [c|].
  - destruct c as [|a c]; simpl; split; try discriminate; split.
    + intros c' [= <-] Hc. done.
    + reflexivity.
    + intros c' [= <-] _. reflexivity.
    + intros [H|H]; discriminate.
  - split; [discriminate|]. split; [discriminate | reflexivity].
Qed.

End SelectionProperties.

(* ===================================================================== *)
(* Properties of the focus effect                                        *)
(* ===================================================================== *)

Section FocusEffectProperties.

Import FocusEffect.

Lemma run_cons_focus (ev : Event) (evs : list Event) (s : Screen) :
  run (ev :: evs) s = run evs (handle ev s).
Proof. reflexivity. Qed.

(** With no timeout pending and no frame pending, the clock changes
    nothing. *)
Lemma run_ticks_idle (evs : list Event) (s : Screen) :
  timeouts s = [] -> frames s = 0%nat -> forallb isTick evs = true ->
  run evs s = s.
Proof.
  revert s. induction evs as [|ev evs IH]; intros s Ht Hf Hticks; [reflexivity|].
  simpl in Hticks. apply andb_true_iff in Hticks as [Hev Hrest].
  rewrite run_cons_focus.
  assert (handle ev s = s) as ->.
  { destruct ev; simpl in *; try discriminate.
    - unfold timeoutFires. by rewrite Ht.
    - unfold frameFires. by rewrite Hf. }
  by apply IH.
Qed.

(** Clearing the timeout that the cleanup holds leaves none pending. *)
Lemma runCleanup_clears (s : Screen) :
  tracked s -> timeouts (runCleanup s) = [] /\ cleanup (runCleanup s) = None.
Proof.
  unfold tracked, runCleanup. intros Htr.
  destruct (cleanup s) as [id|] eqn:Hc; simpl.
  - split; [|reflexivity].
    induction (timeouts s) as [|j l IH]; simpl; [reflexivity|].
    assert (j = id) as ->.
    { specialize (Htr j (or_introl eq_refl)). congruence. }
    rewrite Nat.eqb_refl. simpl. apply IH.
    intros id' Hin. apply Htr. by right.
  - split; [|exact Hc].
    destruct (timeouts s) as [|j l]; [reflexivity|].
    specialize (Htr j (or_introl eq_refl)). discriminate.
Qed.

Lemma filter_tracked (id : nat) (l : list nat) (c : option nat) :
  (forall j, In j l -> c = Some j) ->
  forall j, In j (List.filter (fun j => negb (Nat.eqb j id)) l) -> c = Some j.
Proof. intros H j Hj. apply filter_In in Hj as [Hj _]. by apply H. Qed.

Lemma tracked_handle (ev : Event) (s : Screen) :
  tracked s -> tracked (handle ev s).
Proof.
  intros Htr. destruct ev; simpl.
  - unfold focus. destruct (runCleanup_clears s Htr) as [Ht _].
    unfold tracked, effect. simpl. rewrite Ht. intros id [<-|[]]. reflexivity.
  - unfold blur. destruct (runCleanup_clears s Htr) as [Ht _].
    unfold tracked. rewrite Ht. intros id [].
  - unfold timeoutFires. destruct (existsb _ _); [|exact Htr].
    unfold tracked. simpl. by apply filter_tracked.
  - unfold frameFires. destruct (frames s); exact Htr.
Qed.

(** The states the screen can reach keep every pending timeout under the
    hand of the cleanup function. *)
Lemma tracked_run (evs : list Event) (s : Screen) :
  tracked s -> tracked (run evs s).
Proof.
  revert s. induction evs as [|ev evs IH]; intros s Htr; [exact Htr|].
  rewrite run_cons_focus. by apply IH, tracked_handle.
Qed.

(** X10: in a state the screen can reach and in which no frame callback is
    still pending, a screen that gains focus and loses it before the
    entrance timeout comes due stays hidden: the cleanup clears the timeout,
    so whatever timeouts and frames come after, [visible] is false.  (A frame
    callback that an earlier timeout has already requested is not cleared:
    see X11.) *)
Theorem blur_cancels_entrance (earlier later : list Event) :
  frames (run earlier mounted) = 0%nat ->
  forallb isTick later = true ->
  visible (run (Focus :: Blur :: later) (run earlier mounted)) = false.
Proof.
  intros Hf Hticks. set (s := run earlier mounted) in *.
  assert (tracked s) as Htr by (apply tracked_run; intros id []).
  change (run (Focus :: Blur :: later) s) with (run later (run [Focus; Blur] s)).
  rewrite run_ticks_idle; [| | |exact Hticks].
  - simpl. unfold blur, runCleanup, focus, effect. reflexivity.
  - apply (runCleanup_clears (focus s)). apply (tracked_handle Focus s Htr).
  - simpl. unfold blur, runCleanup, focus, effect. simpl.
    unfold runCleanup. by destruct (cleanup s).
Qed.

(** X11: on focus the screen is hidden, it stays hidden when the timeout
    comes due, and it is shown by the frame that follows; a loss of focus
    after the timeout came due no longer stops that frame, so the screen is
    shown all the same. *)
Theorem entrance_after_timeout_and_frame (s : Screen) :
  let id := nextTimeout s in
  visible (run [Focus] s) = false /\
  visible (run [Focus; TimeoutFires id] s) = false /\
  visible (run [Focus; TimeoutFires id; FrameFires] s) = true /\
  visible (run [Focus; TimeoutFires id; Blur; FrameFires] s) = true.
Proof.
  assert (nextTimeout (runCleanup s) = nextTimeout s) as Hid
    by (unfold runCleanup; destruct (cleanup s); reflexivity).
  simpl. unfold focus, effect, timeoutFires. simpl.
  rewrite Hid, Nat.eqb_refl. simpl. repeat split.
Qed.

End FocusEffectProperties.

(* ===================================================================== *)
(* Further properties of the bottom sheet                                *)
(* ===================================================================== *)

Section SheetProperties.

Import BottomSheet.

Variable p : Props.

(** X13: a hardware-back request never touches the shared values and
    starts no animation: it calls [onRequestClose] when that is supplied,
    otherwise [onClose] if supplied, at once; whatever follows behaves as if
    the request had not happened, so an exit animation that is running still
    calls [onClose] when it finishes. *)
Theorem requestClose_transparent (evs : list Event) (s : Sheet) :
  stateAfter p (RequestClose :: evs) s = stateAfter p evs s /\
  callsOf p (RequestClose :: evs) s
    = ((if onRequestClose p then [onRequestClose_called]
        else if onClose p then [onClose_called] else [])
       ++ callsOf p evs s)%list.
Proof.
  rewrite stateAfter_cons, callsOf_cons. simpl handle. unfold handleRequestClose.
  by destruct (onRequestClose p), (onClose p).
Qed.

(** X15: when the sheet becomes visible, from whatever state, it makes no
    call and replaces the animations that were running, so no later
    completion signal triggers a call; when its two timed animations finish
    it rests at offset 0 and opacity 1. *)
Theorem animateIn_shows (s : Sheet) (l : list (SV * option bool)) :
  callsOf p (BecomesVisible :: signals l) s = [] /\
  stateAfter p [BecomesVisible] s
    = {| translateY := Running (withTiming 0 300 None);
         overlayOpacity := Running (withTiming 1 300 None) |} /\
  stateAfter p [BecomesVisible; AnimationEnd TranslateY (Some true);
                AnimationEnd OverlayOpacity (Some true)] s
    = {| translateY := Value 0; overlayOpacity := Value 1 |}.
Proof.
  assert (handle p BecomesVisible s
          = (tt, {| translateY := Running (withTiming 0 300 None);
                    overlayOpacity := Running (withTiming 1 300 None) |}, [])) as Hh.
  { simpl. unfold animateIn. apply assign_both. }
  split; [|split].
  - rewrite callsOf_cons, Hh. simpl.
    rewrite (callsOf_signals p l _ []); [by destruct (opacityFinished l)|done|].
    intros f. simpl. by destruct (isFinished f).
  - rewrite stateAfter_cons, Hh. reflexivity.
  - rewrite stateAfter_cons, Hh. reflexivity.
Qed.

(** X16: a change event with a downward translation stops whatever
    animations were running, the exit animation included: no completion
    signal after it triggers a call.  A change event with a translation of
    zero or less changes nothing, so a running exit animation still closes
    the sheet. *)
Theorem change_cancels_pending_close
    (e : PanEvent) (s : Sheet) (l : list (SV * option bool)) (evs : list Event) :
  ((0 < translationY e)%Q -> callsOf p (PanChange e :: signals l) s = []) /\
  ((translationY e <= 0)%Q ->
   callsOf p (PanChange e :: evs) s = callsOf p evs s /\
   stateAfter p (PanChange e :: evs) s = stateAfter p evs s).
Proof.
  split; intros H.
  - apply gt_true in H. rewrite callsOf_cons. simpl handle.
    rewrite onChange_spec, H. simpl.
    rewrite (callsOf_signals p l _ []); [by destruct (opacityFinished l)|done|].
    intros f. simpl. by destruct (isFinished f).
  - apply gt_false in H. rewrite callsOf_cons, stateAfter_cons. simpl handle.
    by rewrite onChange_spec, H.
Qed.

End SheetProperties.

(* ===================================================================== *)
(* The further properties at the sample data                             *)
(* ===================================================================== *)

Section FurtherInstances.

Import ProductDetails BottomSheet.

(** Witness of X2: of two options under one id the later one is selected;
    an option with an empty value is not, nor one under ["__proto__"]. *)
Lemma initialOptions_last_wins_witness :
  initialOptions Sample.twoToneVariant !! "opt_color" = Some "Blue" /\
  initialOptions Sample.sparseVariant !! "opt_size" = None /\
  initialOptions Sample.protoVariant = {[ "opt_color" := "Red" ]}.
Proof.
  split; [|split; vm_compute; reflexivity].
  apply (initialOptions_last_wins Sample.twoToneVariant "opt_color" "Blue").
  exists [ {| option_id := Some "opt_color"; value := "Red" |} ],
         {| option_id := Some "opt_color"; value := "Blue" |}, [].
  split; [reflexivity|]. split.
  - split; [reflexivity|]. repeat split; discriminate.
  - split; [reflexivity|]. intros o' Ho'. apply elem_of_nil in Ho'. destruct Ho'.
Defined.

(** Witness of X5: with Blue selected the Blue variant is resolved, after
    the Red one, which does not match. *)
Lemma selectedVariant_first_match_witness :
  selectedVariant Sample.variants Sample.pickBlue = Some Sample.blueVariant /\
  exists before after,
    variantList Sample.variants = (before ++ Sample.blueVariant :: after)%list /\
    supersetMatch Sample.pickBlue Sample.blueVariant /\
    forall u, u ∈ before -> ~ supersetMatch Sample.pickBlue u.
Proof.
  split; [reflexivity|].
  exact (selectedVariant_first_match Sample.variants Sample.pickBlue
           Sample.blueVariant eq_refl).
Defined.

(** Witness of X6: the price shown for Blue under the dollar settings. *)
Lemma renderPrice_sound_witness :
  renderPrice Sample.variants Sample.pickBlue Sample.usdSettings
    = Some {| shown_amount := 15; shown_currency := "usd" |} /\
  exists v p,
    selectedVariant Sample.variants Sample.pickBlue = Some v /\
    p ∈ priceList v /\
    currency_code p = "usd" /\
    {| shown_amount := 15; shown_currency := "usd" |}
      = {| shown_amount := amount p; shown_currency := "usd" |}.
Proof.
  split; [reflexivity|].
  exact (renderPrice_sound Sample.variants Sample.pickBlue Sample.usdSettings
           {| shown_amount := 15; shown_currency := "usd" |} eq_refl).
Defined.

(** Witness of X10: after a full entrance (focus, timeout, frame) and a loss
    of focus, the screen is focused again and loses focus at once: it stays
    hidden when the stale timeout and a frame come. *)
Lemma blur_cancels_entrance_witness :
  FocusEffect.frames
    (FocusEffect.run
       [FocusEffect.Focus; FocusEffect.TimeoutFires 0; FocusEffect.FrameFires;
        FocusEffect.Blur] FocusEffect.mounted) = 0%nat /\
  FocusEffect.visible
    (FocusEffect.run
       [FocusEffect.Focus; FocusEffect.Blur; FocusEffect.TimeoutFires 1;
        FocusEffect.FrameFires]
       (FocusEffect.run
          [FocusEffect.Focus; FocusEffect.TimeoutFires 0; FocusEffect.FrameFires;
           FocusEffect.Blur] FocusEffect.mounted)) = false.
Proof.
  split; [reflexivity|].
  exact (blur_cancels_entrance
           [FocusEffect.Focus; FocusEffect.TimeoutFires 0; FocusEffect.FrameFires;
            FocusEffect.Blur]
           [FocusEffect.TimeoutFires 1; FocusEffect.FrameFires] eq_refl eq_refl).
Defined.

(** The selections that the load effect makes on the two odd variants. *)
Example initialOptions_samples :
  initialOptions Sample.twoToneVariant = {[ "opt_color" := "Blue" ]} /\
  initialOptions Sample.sparseVariant = {[ "opt_color" := "Red" ]}.
Proof. split; vm_compute; reflexivity. Qed.

End FurtherInstances.

(* ===================================================================== *)
(* Properties of the sheet over shared values that hold a number         *)
(* ===================================================================== *)

Section MutablesProperties.

Import BottomSheet Mutables.

Variable p : Props.
Variable dc : option Q.

Abbreviation closeOnce := (if onClose p then [onClose_called] else []).

(** The cancelled animation makes no call: the worklets of this file do
    nothing unless told [finished = true]. *)
Lemma pending_cancelled (m : Mutable) : pending p m (Some false) = [].
Proof.
  unfold pending. destruct (running m) as [a|]; [|reflexivity].
  by apply runCallback_unfinished.
Qed.

Lemma store_spec (sv : SV) (x : Assigned) (s : Values) :
  store p dc sv x s
    = (tt, write sv (installed dc (read sv s) x) s, reported p dc (read sv s) x).
Proof. unfold store. by rewrite pending_cancelled, app_nil_r. Qed.

Lemma store_both (x y : Assigned) (s : Values) :
  lbind (store p dc TranslateY x) (fun _ => store p dc OverlayOpacity y) s
    = (tt, {| offsetY := installed dc (offsetY s) x;
              opacity := installed dc (opacity s) y |},
       (reported p dc (offsetY s) x ++ reported p dc (opacity s) y)%list).
Proof. unfold lbind. by rewrite !store_spec. Qed.

Lemma live_run_cons (i : Input) (rest : list Input) (s : Values) :
  Mutables.run p dc (i :: rest) s =
    let '(_, s1, c1) := Mutables.handle p dc i s in
    let '(_, s2, c2) := Mutables.run p dc rest s1 in
    (tt, s2, (c1 ++ c2)%list).
Proof.
  simpl. unfold lbind. destruct (Mutables.handle p dc i s) as [[[] s1] c1].
  by destruct (Mutables.run p dc rest s1) as [[[] s2] c2].
Qed.

Lemma live_calls_cons (i : Input) (rest : list Input) (s : Values) :
  Mutables.callsOf p dc (i :: rest) s
    = (snd (Mutables.handle p dc i s)
       ++ Mutables.callsOf p dc rest (snd (fst (Mutables.handle p dc i s))))%list.
Proof.
  unfold Mutables.callsOf. rewrite live_run_cons.
  destruct (Mutables.handle p dc i s) as [[[] s1] c1]. simpl.
  by destruct (Mutables.run p dc rest s1) as [[[] s2] c2].
Qed.

Lemma live_state_cons (i : Input) (rest : list Input) (s : Values) :
  Mutables.stateAfter p dc (i :: rest) s
    = Mutables.stateAfter p dc rest (snd (fst (Mutables.handle p dc i s))).
Proof.
  unfold Mutables.stateAfter. rewrite live_run_cons.
  destruct (Mutables.handle p dc i s) as [[[] s1] c1]. simpl.
  by destruct (Mutables.run p dc rest s1) as [[[] s2] c2].
Qed.

Lemma live_app (l1 l2 : list Input) (s : Values) :
  Mutables.stateAfter p dc (l1 ++ l2) s
    = Mutables.stateAfter p dc l2 (Mutables.stateAfter p dc l1 s) /\
  Mutables.callsOf p dc (l1 ++ l2) s
    = (Mutables.callsOf p dc l1 s
       ++ Mutables.callsOf p dc l2 (Mutables.stateAfter p dc l1 s))%list.
Proof.
  revert s. induction l1 as [|i l1 IH]; intros s; [done|].
  rewrite <- app_comm_cons, !live_state_cons, !live_calls_cons.
  destruct (IH (snd (fst (Mutables.handle p dc i s)))) as [-> ->].
  by rewrite app_assoc.
Qed.

(** Frames and completion signals reaching shared values of which the
    vertical offset carries no completion worklet: only the first completion
    signal for the overlay opacity can make calls. *)
Lemma live_calls_ticks (l : list Tick) (s : Values) (cs : list Call) :
  noWorklet (offsetY s) = true ->
  (forall finished,
     pending p (opacity s) finished = if isFinished finished then cs else []) ->
  Mutables.callsOf p dc (ticks l) s = if opacityEnds l then cs else [].
Proof.
  revert s cs. induction l as [|t l IH]; intros s cs Hty Hop; [done|].
  change (ticks (t :: l)) with (tick t :: ticks l). rewrite live_calls_cons.
  destruct s as [ty op]. simpl in Hty, Hop.
  destruct t as [sv v|sv finished]; simpl tick; simpl Mutables.handle.
  - (* a frame *)
    unfold frame. destruct sv; simpl.
    + destruct (running ty) as [a|] eqn:Ha; simpl; apply IH; simpl; try done.
      unfold noWorklet in *. simpl. by rewrite Ha in Hty.
    + destruct (running op) as [a|] eqn:Ha; simpl; apply IH; simpl; try done.
      intros f. specialize (Hop f). unfold pending in *. simpl.
      by rewrite Ha in Hop.
  - (* a completion signal *)
    unfold ended. destruct sv; simpl.
    + destruct (running ty) as [a|] eqn:Ha; simpl; [|by apply IH].
      assert (runCallback p a finished = []) as ->.
      { unfold noWorklet in Hty. rewrite Ha in Hty.
        by destruct a as [to dur [c|]| |]. }
      simpl. by apply IH.
    + pose proof (Hop finished) as Hc. unfold pending in Hc.
      destruct (running op) as [a|] eqn:Ha; simpl.
      * assert (Mutables.callsOf p dc (ticks l)
                  {| offsetY := ty;
                     opacity := resting
                       (if isFinished finished
                        then match a with
                             | withTiming toValue _ _ => toValue
                             | withSpring toValue _ _ => toValue
                             | withDecay _ _ => held op
                             end
                        else held op) |} = []) as ->.
        { rewrite (IH _ []); [by destruct (opacityEnds l)|done|].
          intros f. by destruct (isFinished f). }
        rewrite Hc, app_nil_r. reflexivity.
      * assert (Mutables.callsOf p dc (ticks l) {| offsetY := ty; opacity := op |} = [])
          as ->.
        { rewrite (IH _ []); [by destruct (opacityEnds l)|done|].
          intros f. unfold pending. simpl. rewrite Ha. by destruct (isFinished f). }
        destruct (isFinished finished); [by subst | reflexivity].
Qed.

(** The two assignments that start an exit: [x] to the vertical offset, the
    timing to 0 with the completion worklet [c] to the overlay opacity.  If
    the overlay holds 0 already, the timing is not started and [c] is told
    at once that it finished; otherwise [c] waits for the completion
    signal. *)
Lemma exit_spec (x : Assigned) (c : Completion) (s : Values) (l : list Tick) :
  reported p dc (offsetY s) x = [] ->
  noWorklet (installed dc (offsetY s) x) = true ->
  let gone := Qeq_bool (held (opacity s)) 0 in
  let after :=
    {| offsetY := installed dc (offsetY s) x;
       opacity := {| held := held (opacity s);
                     running := if gone then None
                                else Some (withTiming 0 250 (Some c)) |} |} in
  lbind (store p dc TranslateY x)
        (fun _ => store p dc OverlayOpacity (anim (withTiming 0 250 (Some c)))) s
    = (tt, after, if gone then runCompletion p c (Some true) else []) /\
  Mutables.callsOf p dc (ticks l) after
    = if gone then []
      else if opacityEnds l then runCompletion p c (Some true) else [].
Proof.
  intros Hrep Hnw gone after. split.
  - rewrite store_both, Hrep. reflexivity.
  - subst after. destruct gone.
    + rewrite (live_calls_ticks l _ []); [by destruct (opacityEnds l)|done|].
      intros f. unfold pending. simpl. by destruct (isFinished f).
    + apply live_calls_ticks; [done|].
      intros f. unfold pending. simpl.
      destruct c as [|[cb|]]; simpl; by destruct (isFinished f).
Qed.

Lemma live_onChange_spec (e : PanEvent) (s : Values) :
  Mutables.onChange p dc e s =
    if gt (translationY e) 0
    then (tt, {| offsetY := resting (translationY e);
                 opacity := resting (fadeOpacity (translationY e)) |}, [])
    else (tt, s, []).
Proof.
  unfold Mutables.onChange. destruct (gt (translationY e) 0); [|reflexivity].
  apply store_both.
Qed.

Lemma live_calls_changes (changes : list PanEvent) (s : Values) :
  Mutables.callsOf p dc (map (fun e => Fire (PanChange e)) changes) s = [].
Proof.
  revert s. induction changes as [|e changes IH]; intros s; [done|].
  simpl map. rewrite live_calls_cons. simpl Mutables.handle.
  rewrite live_onChange_spec. destruct (gt (translationY e) 0); simpl; apply IH.
Qed.

Lemma fadeOpacity_not_zero (d : Q) : Qeq_bool (fadeOpacity d) 0 = false.
Proof.
  destruct (Qeq_bool (fadeOpacity d) 0) eqn:H; [|reflexivity].
  apply Qeq_bool_iff in H. pose proof (fadeOpacity_floor d) as Hfloor.
  rewrite H in Hfloor. exfalso. revert Hfloor. apply Qlt_not_le. reflexivity.
Qed.

(** After change events of which one at least went downward, the overlay
    holds the faded opacity of the last such event, which is not 0. *)
Lemma live_changes_fade (changes : list PanEvent) (s : Values) :
  (exists c, c ∈ changes /\ (0 < translationY c)%Q) \/
  (exists d, held (opacity s) = fadeOpacity d) ->
  exists d,
    held (opacity (Mutables.stateAfter p dc
                     (map (fun e => Fire (PanChange e)) changes) s))
      = fadeOpacity d.
Proof.
  revert s. induction changes as [|e changes IH]; intros s H.
  - destruct H as [(c & Hc & _)|H]; [by apply elem_of_nil in Hc | exact H].
  - simpl map. rewrite live_state_cons. simpl Mutables.handle.
    rewrite live_onChange_spec.
    destruct (gt (translationY e) 0) eqn:Hgt; simpl.
    + apply IH. right. by exists (translationY e).
    + apply IH. destruct H as [(c & Hc & Hpos)|H]; [|by right].
      apply elem_of_cons in Hc as [->|Hc]; [|left; by exists c].
      apply gt_true in Hpos. congruence.
Qed.

Lemma onFinalize_closing (e : PanEvent) (s : Values) (l : list Tick) :
  shouldClose e = true ->
  let gone := Qeq_bool (held (opacity s)) 0 in
  snd (Mutables.onFinalize p dc e s) = (if gone then closeOnce else []) /\
  running (opacity (snd (fst (Mutables.onFinalize p dc e s))))
    = (if gone then None else Some (withTiming 0 250 (Some closeWhenFinished))) /\
  Mutables.callsOf p dc (ticks l) (snd (fst (Mutables.onFinalize p dc e s)))
    = if gone then [] else if opacityEnds l then closeOnce else [].
Proof.
  intros Hclose gone. unfold Mutables.onFinalize. rewrite Hclose.
  destruct (gt (Qabs (velocityY e)) 500).
  - destruct (exit_spec (anim (withDecay (velocityY e) (0%Q, 300%Q)))
                closeWhenFinished s l) as [Hh Hl].
    + simpl. by destruct (alreadyThere dc (offsetY s) _).
    + unfold noWorklet. simpl. by destruct (alreadyThere dc (offsetY s) _).
    + rewrite Hh. simpl. split; [done|]. split; [done | exact Hl].
  - destruct (exit_spec (anim (withTiming 300 250 None)) closeWhenFinished s l)
      as [Hh Hl].
    + simpl. by destruct (alreadyThere dc (offsetY s) _).
    + unfold noWorklet. simpl. by destruct (alreadyThere dc (offsetY s) _).
    + rewrite Hh. simpl. split; [done|]. split; [done | exact Hl].
Qed.

(** C3: a drag whose release exceeds the distance threshold (100) or the
    speed threshold (500) assigns the timed exit animation, with the close
    worklet, to the overlay opacity.  [onClose] is called exactly once when
    the completion of that animation is reported finished, and not at all
    otherwise: by the completion signal that follows, or, when the overlay
    already holds opacity 0 at the release, by the setter at once, the
    animation not being started.  After a downward change event the overlay
    does not hold 0, so the call waits for the completion signal. *)
Theorem pan_release_closes_once
    (changes : list PanEvent) (release : PanEvent) (s : Values) (l : list Tick) :
  (100 < translationY release \/ 500 < velocityY release)%Q ->
  let atRelease :=
    Mutables.stateAfter p dc (map (fun e => Fire (PanChange e)) changes) s in
  let gone := Qeq_bool (held (opacity atRelease)) 0 in
  Mutables.callsOf p dc (Mutables.drag changes release) s
    = (if gone then closeOnce else []) /\
  running (opacity (Mutables.stateAfter p dc (Mutables.drag changes release) s))
    = (if gone then None else Some (withTiming 0 250 (Some closeWhenFinished))) /\
  Mutables.callsOf p dc (Mutables.drag changes release ++ ticks l) s
    = (if gone || opacityEnds l then closeOnce else []) /\
  ((exists c, c ∈ changes /\ (0 < translationY c)%Q) -> gone = false).
Proof.
  intros Hclose atRelease gone. apply shouldClose_true in Hclose.
  destruct (onFinalize_closing release atRelease l Hclose) as (Hcalls & Hrun & Hticks).
  fold gone in Hcalls, Hrun, Hticks.
  unfold Mutables.drag.
  destruct (live_app (map (fun e => Fire (PanChange e)) changes)
              [Fire (PanFinalize release)] s) as [Hst Hcs].
  rewrite live_state_cons in Hst. rewrite live_calls_cons in Hcs.
  simpl Mutables.handle in Hst, Hcs. fold atRelease in Hst, Hcs.
  rewrite live_calls_changes in Hcs. simpl in Hcs. rewrite app_nil_r in Hcs.
  change (Mutables.stateAfter p dc [] ?x) with x in Hst.
  split; [by rewrite Hcs|]. split; [by rewrite Hst|]. split.
  - destruct (live_app (map (fun e => Fire (PanChange e)) changes
                          ++ [Fire (PanFinalize release)]) (ticks l) s) as [_ ->].
    rewrite Hcs, Hst, Hcalls, Hticks.
    destruct gone; simpl; [by rewrite app_nil_r | reflexivity].
  - intros Hdown. subst gone atRelease.
    destruct (live_changes_fade changes s (or_introl Hdown)) as [d ->].
    apply fadeOpacity_not_zero.
Qed.

Lemma animateOut_live (cb : option Thunk) (s : Values) (l : list Tick) :
  let gone := Qeq_bool (held (opacity s)) 0 in
  let calls := match cb with Some t => runThunk p t | None => [] end in
  Mutables.animateOut p dc cb s
    = (tt, {| offsetY := installed dc (offsetY s) (anim (withTiming 300 250 None));
              opacity := {| held := held (opacity s);
                            running := if gone then None
                                       else Some (withTiming 0 250
                                                    (Some (callbackWhenFinished cb))) |} |},
       if gone then calls else []) /\
  Mutables.callsOf p dc (ticks l) (snd (fst (Mutables.animateOut p dc cb s)))
    = if gone then [] else if opacityEnds l then calls else [].
Proof.
  intros gone calls. unfold Mutables.animateOut.
  destruct (exit_spec (anim (withTiming 300 250 None)) (callbackWhenFinished cb) s l)
    as [Hh Hl].
  - simpl. by destruct (alreadyThere dc (offsetY s) _).
  - unfold noWorklet. simpl. by destruct (alreadyThere dc (offsetY s) _).
  - assert (runCompletion p (callbackWhenFinished cb) (Some true) = calls) as Hc
      by (subst calls; by destruct cb).
    rewrite Hc in Hh, Hl. split; [exact Hh|].
    rewrite Hh. cbn [fst snd]. exact Hl.
Qed.

(** C9: [animateOut] runs the callback it was given at most once, and only
    when the completion of the overlay animation is reported finished: by
    the completion signal that follows, or by the setter at once when the
    overlay already holds opacity 0.  If the animation is interrupted, or no
    callback was given, no call is made. *)
Theorem animateOut_callback_at_most_once
    (cb : option Thunk) (s : Values) (l : list Tick) :
  let gone := Qeq_bool (held (opacity s)) 0 in
  Mutables.callsOf p dc [Fire (AnimateOut cb)] s
    = match cb with
      | Some t => if gone then runThunk p t else []
      | None => []
      end /\
  Mutables.callsOf p dc (Fire (AnimateOut cb) :: ticks l) s
    = match cb with
      | Some t => if gone || opacityEnds l then runThunk p t else []
      | None => []
      end /\
  (length (Mutables.callsOf p dc (Fire (AnimateOut cb) :: ticks l) s) <= 1)%nat.
Proof.
  intros gone. destruct (animateOut_live cb s l) as [Hh Hl]. fold gone in Hh, Hl.
  assert (Mutables.callsOf p dc (Fire (AnimateOut cb) :: ticks l) s
          = match cb with
            | Some t => if gone || opacityEnds l then runThunk p t else []
            | None => []
            end) as Heq.
  { rewrite live_calls_cons. simpl Mutables.handle. rewrite Hl, Hh. simpl.
    destruct cb as [t|], gone; simpl; rewrite ?app_nil_r; try reflexivity.
    by destruct (opacityEnds l). }
  split; [|split; [exact Heq|]].
  - rewrite live_calls_cons. simpl Mutables.handle. rewrite Hh. simpl.
    destruct cb as [t|], gone; simpl; by rewrite ?app_nil_r.
  - rewrite Heq. destruct cb as [[| |k]|]; simpl;
      destruct (gone || opacityEnds l), (onClose p); simpl; lia.
Qed.



Lemma live_closeCalls_app (c1 c2 : list Call) :
  closeCalls (c1 ++ c2) = (closeCalls c1 + closeCalls c2)%nat.
Proof.
  induction c1 as [|c c1 IH]; [reflexivity|].
  destruct c; simpl; rewrite IH; reflexivity.
Qed.

Lemma closeCalls_runThunk (t : Thunk) : (closeCalls (runThunk p t) <= 1)%nat.
Proof. destruct t; simpl; destruct (onClose p); simpl; lia. Qed.

Lemma closeCalls_runCallback (a : Animation) (finished : option bool) :
  (closeCalls (runCallback p a finished) <= if isFinished finished then 1 else 0)%nat.
Proof.
  destruct (isFinished finished) eqn:Hf.
  - destruct a as [to dur [[|[t|]]|]| |]; simpl; rewrite ?Hf; simpl;
      first [lia | apply closeCalls_runThunk
            | apply (closeCalls_runThunk handleClose)].
  - by rewrite (runCallback_unfinished p a finished Hf).
Qed.

(** The steps of a proof about one handler: its two assignments, and the
    cases of the setter's test. *)
Ltac two_stores :=
  rewrite store_both; unfold noWorklet, reported, installed; simpl;
  repeat match goal with
         | |- context [alreadyThere ?d ?m ?a] => destruct (alreadyThere d m a)
         end; simpl.

(** One input: the vertical offset still carries no completion worklet, and
    [onClose] is called at most once, and only by an input that can close. *)
Lemma live_handle_bound (i : Input) (s : Values) :
  noWorklet (offsetY s) = true ->
  noWorklet (offsetY (snd (fst (Mutables.handle p dc i s)))) = true /\
  (closeCalls (snd (Mutables.handle p dc i s)) <= if canClose i then 1 else 0)%nat.
Proof.
  intros Hn. destruct i as [[|e|e| | | |cb|sv finished]|sv v]; simpl Mutables.handle;
    simpl canClose.
  - unfold Mutables.animateIn. two_stores; split; (reflexivity || lia).
  - rewrite live_onChange_spec. destruct (gt (translationY e) 0); simpl;
      split; (done || lia).
  - unfold Mutables.onFinalize.
    destruct (shouldClose e); [destruct (gt (Qabs (velocityY e)) 500)|];
      two_stores; split; try reflexivity; try lia; destruct (onClose p); simpl; lia.
  - unfold Mutables.onOverlayTap.
    destruct (dismissOnOverlayPress p); [destruct (onOverlayPress p)|];
      [simpl; split; (done || lia) | | simpl; split; (done || lia)].
    two_stores; split; try reflexivity; try lia; destruct (onClose p); simpl; lia.
  - unfold Mutables.handleCloseIconPress, Mutables.animateOut.
    destruct (onCloseIconPress p); [simpl; split; (done || lia)|].
    two_stores; split; try reflexivity; try lia; destruct (onClose p); simpl; lia.
  - unfold Mutables.handleRequestClose.
    destruct (onRequestClose p), (onClose p); simpl; split; (done || lia).
  - unfold Mutables.animateOut.
    two_stores; split; try reflexivity; try lia;
      destruct cb as [t|]; simpl; try lia; apply closeCalls_runThunk.
  - unfold ended. destruct s as [ty op]. simpl in Hn. destruct sv; simpl.
    + destruct (running ty) as [a|] eqn:Ha; simpl; [|split; [done | lia]].
      split; [reflexivity|]. unfold noWorklet in Hn. rewrite Ha in Hn.
      destruct a as [to dur [c|]| |]; simpl in *; (discriminate || lia).
    + destruct (running op) as [a|]; simpl; [|split; [done | lia]].
      split; [done|]. apply closeCalls_runCallback.
  - unfold frame. destruct s as [ty op]. simpl in Hn. destruct sv; simpl.
    + destruct (running ty) as [a|] eqn:Ha; simpl; [|split; [done | lia]].
      split; [|lia]. unfold noWorklet in *. simpl. by rewrite Ha in Hn.
    + destruct (running op) as [a|]; simpl; split; (done || lia).
Qed.

(** X14: whatever the inputs, and in whatever order, each input leads to at
    most one call of [onClose], and only these inputs can: a completion
    signal that reports the overlay animation finished, a hardware-back
    request, and the inputs that assign an exit animation to the overlay (a
    closing release, an overlay tap, a press of the close icon, a call of
    [animateOut]).  Change events, becoming visible, releases that snap back,
    frames and the signals of the vertical offset never call it. *)
Theorem onClose_calls_bounded (inputs : list Input) (s : Values) :
  noWorklet (offsetY s) = true ->
  (closeCalls (Mutables.callsOf p dc inputs s) <= closers inputs)%nat.
Proof.
  revert s. induction inputs as [|i inputs IH]; intros s Hn; [simpl; lia|].
  rewrite live_calls_cons, live_closeCalls_app.
  destruct (live_handle_bound i s Hn) as [Hn' Hi].
  specialize (IH _ Hn'). simpl closers. lia.
Qed.

End MutablesProperties.

(* ===================================================================== *)
(* The properties of the shared values at the sample data                *)
(* ===================================================================== *)

Section MutablesInstances.

Import BottomSheet Mutables.

(** Witness of C3: on the shown sheet, a change event 60 down and a fling:
    the release makes no call, and [onClose] is called once when the overlay
    animation is reported finished.  The same fling on the sheet that was
    never shown, whose overlay holds 0: [onClose] is called by the release. *)
Lemma pan_release_closes_once_witness :
  (100 < translationY Sample.fling \/ 500 < velocityY Sample.fling)%Q /\
  Mutables.callsOf Screen.sheetProps (Some 0%Q)
    (Mutables.drag [Sample.shortDrag] Sample.fling) Sample.shownValues = [] /\
  Mutables.callsOf Screen.sheetProps (Some 0%Q)
    (Mutables.drag [Sample.shortDrag] Sample.fling ++
     ticks [FrameTick OverlayOpacity (1 # 2); EndTick TranslateY (Some true);
            EndTick OverlayOpacity (Some true); EndTick OverlayOpacity (Some true)])
    Sample.shownValues = [onClose_called] /\
  Mutables.callsOf Screen.sheetProps (Some 0%Q)
    (Mutables.drag [] Sample.fling) Mutables.start = [onClose_called].
Proof.
  assert (100 < translationY Sample.fling \/ 500 < velocityY Sample.fling)%Q as H
    by (right; reflexivity).
  destruct (pan_release_closes_once Screen.sheetProps (Some 0%Q) [Sample.shortDrag]
              Sample.fling Sample.shownValues
              [FrameTick OverlayOpacity (1 # 2); EndTick TranslateY (Some true);
               EndTick OverlayOpacity (Some true); EndTick OverlayOpacity (Some true)]
              H) as (Hdrag & _ & Hall & _).
  destruct (pan_release_closes_once Screen.sheetProps (Some 0%Q) []
              Sample.fling Mutables.start [] H) as (Hstart & _).
  split; [exact H|]. split; [exact Hdrag|]. split; [exact Hall | exact Hstart].
Defined.

(** Witness of C9: a callback of the content of the shown sheet is called
    once when the exit animation is reported finished, and not when it is
    interrupted. *)
Lemma animateOut_callback_at_most_once_witness :
  Mutables.callsOf Screen.sheetProps (Some 0%Q)
    (Fire (AnimateOut (Some (userCallback "done")))
     :: ticks [EndTick OverlayOpacity (Some true)]) Sample.shownValues
  = [callback_called "done"] /\
  Mutables.callsOf Screen.sheetProps (Some 0%Q)
    (Fire (AnimateOut (Some (userCallback "done")))
     :: ticks [EndTick OverlayOpacity (Some false)]) Sample.shownValues
  = [].
Proof.
  destruct (animateOut_callback_at_most_once Screen.sheetProps (Some 0%Q)
              (Some (userCallback "done")) Sample.shownValues
              [EndTick OverlayOpacity (Some true)]) as (_ & Hdone & _).
  destruct (animateOut_callback_at_most_once Screen.sheetProps (Some 0%Q)
              (Some (userCallback "done")) Sample.shownValues
              [EndTick OverlayOpacity (Some false)]) as (_ & Hcut & _).
  split; [exact Hdone | exact Hcut].
Defined.



(** The sibling path of [onSuccess]: the close icon hands the navigation to
    [animateOut], so on the sheet of the screen [onClose] runs only when the
    completion of the exit animation is reported finished. *)
Lemma closeIcon_navigates_after_exit_animation
    (dc : option Q) (s : Values) (l : list Tick) :
  Mutables.callsOf Screen.sheetProps dc (Fire CloseIconPress :: ticks l) s
    = if Qeq_bool (held (opacity s)) 0 || opacityEnds l
      then [onClose_called] else [].
Proof.
  rewrite live_calls_cons.
  change (Mutables.handle Screen.sheetProps dc (Fire CloseIconPress) s)
    with (Mutables.animateOut Screen.sheetProps dc (Some onCloseThunk) s).
  destruct (animateOut_live Screen.sheetProps dc (Some onCloseThunk) s l) as [Hh Hl].
  rewrite Hl, Hh. simpl.
  destruct (Qeq_bool (held (opacity s)) 0); reflexivity.
Qed.

(** Witness of X14: the sheet is shown, tapped on the overlay, and its exit
    animation finishes: two inputs can close, one call is made.  A tap on
    the sheet that was never shown calls [onClose] itself. *)
Lemma onClose_calls_bounded_witness :
  noWorklet (offsetY Mutables.start) = true /\
  (closeCalls
     (Mutables.callsOf Screen.sheetProps (Some 0%Q)
        [Fire BecomesVisible; Fire (AnimationEnd TranslateY (Some true));
         Fire (AnimationEnd OverlayOpacity (Some true)); Fire OverlayTap;
         Fire (AnimationEnd OverlayOpacity (Some true))] Mutables.start) <= 3)%nat /\
  Mutables.callsOf Screen.sheetProps (Some 0%Q)
    [Fire BecomesVisible; Fire (AnimationEnd TranslateY (Some true));
     Fire (AnimationEnd OverlayOpacity (Some true)); Fire OverlayTap;
     Fire (AnimationEnd OverlayOpacity (Some true))] Mutables.start
  = [onClose_called] /\
  Mutables.callsOf Screen.sheetProps (Some 0%Q) [Fire OverlayTap] Mutables.start
  = [onClose_called].
Proof.
  split; [reflexivity|]. split; [|split; reflexivity].
  exact (onClose_calls_bounded Screen.sheetProps (Some 0%Q)
           [Fire BecomesVisible; Fire (AnimationEnd TranslateY (Some true));
            Fire (AnimationEnd OverlayOpacity (Some true)); Fire OverlayTap;
            Fire (AnimationEnd OverlayOpacity (Some true))] Mutables.start eq_refl).
Defined.

End MutablesInstances.
